(** * Vector search walkthrough (examples/vector_search.ipynb)

    The repository's only source file is a notebook: client code that
    connects to a datastore, inserts documents, registers a vector index
    and issues a similarity query through an external library.

    The first part of this development ([Module Notebook]) embeds the
    notebook's cells: Python values and dictionaries, the exceptions the
    cells can raise, the calls to the external library as logged events
    answered by an oracle, and the cells themselves as functions on the
    kernel's global variables.

    The second part embeds what the notebook's [like] query is served
    by: the vector store and the similarity index with its exact search.
    That code is not among the repository's files; it is modelled from
    the specification.

    The third part states and proves the properties of both; the fourth
    goes further into the notebook: the sort beyond its order, the
    display loop, and sessions run by hand. *)

From Stdlib Require Import Ascii QArith Reals Lra Lia.
From Stdlib Require Lqa.
From stdpp Require Import base option list gmap strings sorting fin_maps.


(* ===================================================================== *)
(** * Part I: the notebook                                                *)
(* ===================================================================== *)

Module Notebook.

(** ** Python values *)

(** A Python number: an int or a finite float (a rational: negation and
    comparison of such numbers are exact), an infinity, or not-a-number. *)
Inductive number : Type :=
  | Fin (q : Q)
  | Inf (negative : bool)
  | NaN.

(** [p < q] on rationals. *)
Definition Qltb (x y : Q) : bool :=
  (Qnum x * Zpos (Qden y) <? Qnum y * Zpos (Qden x))%Z.

(** [-x] *)
Definition num_neg (x : number) : number :=
  match x with
  | Fin q => Fin (- q)%Q
  | Inf negative => Inf (negb negative)
  | NaN => NaN
  end.

(** [x < y]: every comparison with not-a-number is false. *)
Definition num_lt (x y : number) : bool :=
  match x, y with
  | NaN, _ | _, NaN => false
  | Fin p, Fin q => Qltb p q
  | Fin _, Inf negative => negb negative
  | Inf negative, Fin _ => negative
  | Inf n1, Inf n2 => n1 && negb n2
  end.

(** [x <= y] *)
Definition num_le (x y : number) : bool :=
  match x, y with
  | NaN, _ | _, NaN => false
  | _, _ => negb (num_lt y x)
  end.

(** [x + y], exact (the rounding of a sum of floats is left out: no
    cell adds two numbers). *)
Definition num_add (x y : number) : number :=
  match x, y with
  | NaN, _ | _, NaN => NaN
  | Fin p, Fin q => Fin (p + q)%Q
  | Inf negative, Fin _ | Fin _, Inf negative => Inf negative
  | Inf n1, Inf n2 => if Bool.eqb n1 n2 then Inf n1 else NaN
  end.

(** [bool(x)]: false for zero only. *)
Definition num_truthy (x : number) : bool :=
  match x with
  | Fin q => negb (Qeq_bool q 0%Q)
  | Inf _ | NaN => true
  end.

(** The values the cells handle: [None], strings and numbers. *)
Inductive value : Type :=
  | VNone
  | VStr (s : string)
  | VNum (x : number).

(** A [Document] (and a plain dict): string keys to values. *)
Abbreviation document := (gmap string value).

Inductive exn : Type :=
  | Exception (msg : string)
  | NameError (name : string)
  | KeyError (key : string)
  | TypeError (what : string)
  | ExternalError (msg : string).

Inductive result (A : Type) : Type :=
  | Ok (a : A)
  | Raise (e : exn).
Arguments Ok {A} a.
Arguments Raise {A} e.

Definition rbind {A B} (r : result A) (k : A → result B) : result B :=
  match r with Ok a => k a | Raise e => Raise e end.

Fixpoint rmap {A B} (f : A → result B) (l : list A) : result (list B) :=
  match l with
  | [] => Ok []
  | x :: l' =>
      rbind (f x) (λ y, rbind (rmap f l') (λ ys, Ok (y :: ys)))
  end.

(** [r[k]]: subscripting a dict raises [KeyError] on a missing key. *)
Definition getitem (r : document) (k : string) : result value :=
  match r !! k with
  | Some v => Ok v
  | None => Raise (KeyError k)
  end.

(** Unary minus: defined on numbers only. *)
Definition neg (v : value) : result value :=
  match v with
  | VNum x => Ok (VNum (num_neg x))
  | _ => Raise (TypeError "bad operand type for unary -")
  end.

(** Truthiness, as the conditional expression of the display loop uses it. *)
Definition truthy (v : value) : bool :=
  match v with
  | VNone => false
  | VStr s => negb (String.eqb s "")
  | VNum x => num_truthy x
  end.

(** [a + b] as the display loop uses it: string concatenation. *)
Definition add (a b : value) : result value :=
  match a, b with
  | VStr s, VStr t => Ok (VStr (s +:+ t))
  | VNum x, VNum y => Ok (VNum (num_add x y))
  | _, _ => Raise (TypeError "unsupported operand type(s) for +")
  end.

(** ** [sorted(iterable, key=...)]

    [sorted] first calls [key] once on every element, in order (an
    exception of [key] leaves [sorted] before any comparison), then
    sorts the elements by their keys with [<] only. The sort is
    CPython's [list.sort] as the notebook's kernel (Python 3.11) runs it
    on a list of fewer than 64 elements: [count_run] finds the run the
    list starts with (not descending, or strictly descending and then
    reversed), and [binarysort] inserts every further element into it by
    binary search. A longer list is cut into such runs that are then
    merged; on keys that [<] orders totally (no not-a-number among them)
    that gives the same list, the stable sort, and for such keys the
    functions below are right at every length. What CPython leaves of 64
    or more keys with a not-a-number among them is not modelled. *)

(** How many further elements go on a run that is not descending. *)
Fixpoint run_ascending {A} (prev : number) (l : list (number * A)) : nat :=
  match l with
  | [] => 0
  | p :: l' =>
      if num_lt (fst p) prev then 0 else S (run_ascending (fst p) l')
  end.

(** How many further elements go on a strictly descending run. *)
Fixpoint run_descending {A} (prev : number) (l : list (number * A)) : nat :=
  match l with
  | [] => 0
  | p :: l' =>
      if num_lt (fst p) prev then S (run_descending (fst p) l') else 0
  end.

(** [count_run]: the length of the run at the start of the list, and
    whether it is descending. *)
Definition count_run {A} (l : list (number * A)) : nat * bool :=
  match l with
  | [] => (0, false)
  | [p] => (1, false)
  | p0 :: p1 :: l' =>
      if num_lt (fst p1) (fst p0)
      then (2 + run_descending (fst p1) l', true)
      else (2 + run_ascending (fst p1) l', false)
  end.

(** The binary search of [binarysort]: where in [run], between [l] and
    [r], the pivot belongs. The loop halves the interval, so [fuel] no
    smaller than [r - l] lets it finish. *)
Fixpoint bisect {A} (fuel : nat) (pivot : number) (run : list (number * A))
    (l r : nat) : nat :=
  match fuel with
  | 0 => l
  | S fuel' =>
      if (l <? r)%nat then
        let p := (l + (r - l) / 2)%nat in
        match run !! p with
        | Some x =>
            if num_lt pivot (fst x)
            then bisect fuel' pivot run l p
            else bisect fuel' pivot run (p + 1)%nat r
        | None => l
        end
      else l
  end.

(** One step of [binarysort]: the pivot is moved to its place. *)
Definition binary_insert {A} (run : list (number * A)) (x : number * A)
  : list (number * A) :=
  let l := bisect (length run) (fst x) run 0 (length run) in
  take l run ++ x :: drop l run.

Definition binarysort {A} (run rest : list (number * A)) : list (number * A) :=
  fold_left binary_insert rest run.

(** [list.sort] on the keyed elements. *)
Definition list_sort {A} (l : list (number * A)) : list (number * A) :=
  if (length l <? 2)%nat then l
  else
    let '(n, descending) := count_run l in
    let run := take n l in
    binarysort (if descending then reverse run else run) (drop n l).

(** The keys of the notebook's [sorted] are results of a unary minus,
    hence numbers; keys of another type are not ordered here. *)
Definition as_number (v : value) : result number :=
  match v with
  | VNum x => Ok x
  | _ => Raise (TypeError "key is not a number")
  end.

(** The key of one element, paired with it. *)
Definition decorate {A} (key : A → result value) (x : A) : result (number * A) :=
  rbind (key x) (λ k, rbind (as_number k) (λ q, Ok (q, x))).

Definition sorted {A} (key : A → result value) (l : list A) : result (list A) :=
  rbind (rmap (decorate key) l) (λ keyed, Ok (snd <$> list_sort keyed)).

(** [lambda r: -r['score']] *)
Definition neg_score (r : document) : result value :=
  rbind (getitem r "score") neg.

(** The score of a result, when it has a number for one. *)
Definition score (r : document) : option number :=
  match r !! "score" with
  | Some (VNum x) => Some x
  | _ => None
  end.

(** [a] may stand before [b] in a descending ranking: [a]'s score is
    greater than or equal to [b]'s (which a not-a-number never is). *)
Definition score_ge (a b : document) : Prop :=
  ∃ sa sb, score a = Some sa ∧ score b = Some sb ∧ num_le sb sa = true.

(** A result whose score is a number other than not-a-number. *)
Definition ordered_score (r : document) : Prop :=
  ∃ s, score r = Some s ∧ s ≠ NaN.

(** The stable sort, as the specification of [list_sort]: every element
    in turn is put behind the elements of the sorted part whose key is
    not greater than its own. *)
Fixpoint insert_right {A} (x : number * A) (run : list (number * A))
  : list (number * A) :=
  match run with
  | [] => [x]
  | y :: run' =>
      if num_lt (fst x) (fst y) then x :: y :: run' else y :: insert_right x run'
  end.

Definition stable_sort {A} (l : list (number * A)) : list (number * A) :=
  fold_left (λ run x, insert_right x run) l [].

(** The order of two keys, as a sort leaves them. *)
Definition key_le {A} (p1 p2 : number * A) : Prop :=
  num_lt (fst p2) (fst p1) = false.

(** ** The external library, as the cells see it *)

(** Queries are built client-side and handed to [db.execute]. *)
Inductive query : Type :=
  | InsertMany (collection : string) (docs : list document)
  | FindOne (collection : string)
  | Find (collection : string)
  | LikeFind (collection : string) (r : document) (vector_index : string) (n : Z).

(** A model object: its identity and its [identifier] attribute. *)
Record Model : Type := { object_id : positive; identifier : string }.

Record Listener : Type := {
  select : query;
  key : string;
  model : Model;
  predict_kwargs : gmap string Z
}.

Record VectorIndex : Type := {
  vi_identifier : string;
  indexing_listener : Listener
}.

(** The argument of [Markdown(...)]: the fragments an f-string joins, or
    the one value passed. *)
Inductive markdown : Type :=
  | Markdown (parts : list value).

(** What a run does to the outside, in order. *)
Inductive event : Type :=
  | EShell (cmd : string)
  | EConnect (uri artifact_store : string)
  | EReadJson (path : string)
  | ENewModel (name : string)
  | EExecute (q : query)
  | EAdd (vi : VectorIndex)
  | EShow (what : string)
  | EPrint (docs : list document)
  | EDisplay (md : markdown).

(** The answers of the outside. Each may depend on everything the run
    did before (the history), and each call may raise. *)
Record world : Type := {
  w_connect : list event → string → string → result unit;
  w_read_json : list event → string → result (list document);
  w_new_model : list event → string → result Model;
  w_execute : list event → query → result (list document);
  w_add : list event → VectorIndex → result unit;
  w_show : list event → string → result unit;
  w_display : list event → markdown → result unit
}.

(** A cell's computation: it extends the history and returns or raises. *)
Definition M (A : Type) : Type := list event → list event * result A.

Definition ret {A} (a : A) : M A := λ h, (h, Ok a).

Definition bind {A B} (m : M A) (k : A → M B) : M B :=
  λ h, match m h with
       | (h', Ok a) => k a h'
       | (h', Raise e) => (h', Raise e)
       end.

Definition raise {A} (e : exn) : M A := λ h, (h, Raise e).

Definition lift {A} (r : result A) : M A := λ h, (h, r).

(** An output: logged, never raises. *)
Definition emit (e : event) : M unit := λ h, (h ++ [e], Ok tt).

(** A call to the outside: logged, then answered from the history so far. *)
Definition call {A} (e : event) (answer : list event → result A) : M A :=
  λ h, (h ++ [e], answer h).

#[export] Instance M_ret : MRet M := @ret.
#[export] Instance M_bind : MBind M := λ A B k m, bind m k.

Fixpoint for_each {A} (l : list A) (body : A → M unit) : M unit :=
  match l with
  | [] => ret tt
  | x :: l' => bind (body x) (λ _, for_each l' body)
  end.

(** ** The kernel: the notebook's global variables *)

(** [g_result] is the global [result]: the documents it holds, or, for
    a cursor, the documents it still has to yield. *)
Record kernel : Type := {
  environ : gmap string string;
  g_db : option (string * string);
  g_doc_collection : option string;
  g_data : option (list document);
  g_model : option Model;
  g_result : option (list document)
}.

Definition fresh (env : gmap string string) : kernel :=
  {| environ := env; g_db := None; g_doc_collection := None;
     g_data := None; g_model := None; g_result := None |}.

(** Reading a global that no cell has assigned yet. *)
Definition global {A} (name : string) (v : option A) : M A :=
  match v with
  | Some a => ret a
  | None => raise (NameError name)
  end.

(** ** The cells, in the order of the notebook *)

(** [!pip install ...]: a shell escape prints and never raises. *)
Definition cell_install (w : world) (k : kernel) : M kernel :=
  _ ← emit (EShell "pip install superduperdb");
  _ ← emit (EShell "pip install ipython openai==1.1.2");
  ret k.

Definition dquote : string := String "034"%char EmptyString.

Definition missing_key_message : string :=
  "You need to set an OpenAI key as environment variable: "
  +:+ dquote +:+ "export OPEN_API_KEY=sk-..." +:+ dquote.

(** [if 'OPENAI_API_KEY' not in os.environ: raise Exception(...)] *)
Definition cell_setup (w : world) (k : kernel) : M kernel :=
  if decide ("OPENAI_API_KEY" ∈ dom (environ k))
  then ret k
  else raise (Exception missing_key_message).

(** [os.getenv(name, fallback)] *)
Definition getenv (k : kernel) (name fallback : string) : string :=
  default fallback (environ k !! name).

(** [db = superduper(mongodb_uri, artifact_store=...)],
    [doc_collection = Collection('documents')] *)
Definition cell_connect (w : world) (k : kernel) : M kernel :=
  let mongodb_uri := getenv k "MONGODB_URI" "mongomock://test" in
  let store := "filesystem://./data/" in
  _ ← call (EConnect mongodb_uri store) (λ h, w_connect w h mongodb_uri store);
  ret {| environ := environ k; g_db := Some (mongodb_uri, store);
         g_doc_collection := Some "documents"; g_data := g_data k;
         g_model := g_model k; g_result := g_result k |}.

(** [!curl -O ...], then [data = json.load(f)] *)
Definition cell_load (w : world) (k : kernel) : M kernel :=
  _ ← emit (EShell
        "curl -O https://superduperdb-public.s3.eu-west-1.amazonaws.com/pymongo.json");
  data ← call (EReadJson "pymongo.json") (λ h, w_read_json w h "pymongo.json");
  ret {| environ := environ k; g_db := g_db k;
         g_doc_collection := g_doc_collection k; g_data := Some data;
         g_model := g_model k; g_result := g_result k |}.

(** [db.execute(q)] *)
Definition db_execute (w : world) (k : kernel) (q : query) : M (list document) :=
  _ ← global "db" (g_db k);
  call (EExecute q) (λ h, w_execute w h q).

(** [db.execute(doc_collection.insert_many([Document(r) for r in data]))] *)
Definition cell_insert (w : world) (k : kernel) : M kernel :=
  _ ← global "db" (g_db k);
  coll ← global "doc_collection" (g_doc_collection k);
  data ← global "data" (g_data k);
  _ ← db_execute w k (InsertMany coll data);
  ret k.

(** [result = db.execute(Collection('documents').find_one())],
    [print(result)] *)
Definition cell_find_one (w : world) (k : kernel) : M kernel :=
  r ← db_execute w k (FindOne "documents");
  _ ← emit (EPrint r);
  ret {| environ := environ k; g_db := g_db k;
         g_doc_collection := g_doc_collection k; g_data := g_data k;
         g_model := g_model k; g_result := Some r |}.

(** [model = OpenAIEmbedding(model='text-embedding-ada-002')] *)
Definition cell_model (w : world) (k : kernel) : M kernel :=
  m ← call (ENewModel "text-embedding-ada-002")
           (λ h, w_new_model w h "text-embedding-ada-002");
  ret {| environ := environ k; g_db := g_db k;
         g_doc_collection := g_doc_collection k; g_data := g_data k;
         g_model := Some m; g_result := g_result k |}.

(** The Sentence-Transformers cell: every line is a comment. *)
Definition cell_sentence_transformers (w : world) (k : kernel) : M kernel :=
  ret k.

(** [db.add(VectorIndex(identifier=f'pymongo-docs-{model.identifier}',
    indexing_listener=Listener(select=doc_collection.find(), key='value',
    model=model, predict_kwargs={'max_chunk_size': 1000})))],
    [db.show('vector_index')] *)
Definition cell_index (w : world) (k : kernel) : M kernel :=
  _ ← global "db" (g_db k);
  m ← global "model" (g_model k);
  coll ← global "doc_collection" (g_doc_collection k);
  m' ← global "model" (g_model k);
  let vi :=
    {| vi_identifier := "pymongo-docs-" +:+ identifier m;
       indexing_listener :=
         {| select := Find coll; key := "value"; model := m';
            predict_kwargs := {[ "max_chunk_size" := 1000%Z ]} |} |} in
  _ ← call (EAdd vi) (λ h, w_add w h vi);
  _ ← call (EShow "vector_index") (λ h, w_show w h "vector_index");
  ret k.

(** [display(Markdown(x))]: IPython builds the object and shows it. That
    is library code too: it raises TypeError when [x] is neither a
    string nor None, and a string that starts with http or names an
    existing file is loaded from there, which may fail. The call is
    logged with its argument and answered by the outside. *)
Definition display (w : world) (md : markdown) : M unit :=
  call (EDisplay md) (λ h, w_display w h md).

(** The heading of one result:
    [f'### `{r["parent"] + "." if r["parent"] else ""}{r["res"]}`'] *)
Definition heading (r : document) : result markdown :=
  rbind (getitem r "parent") (λ cond,
  rbind (if truthy cond
         then rbind (getitem r "parent") (λ p, add p (VStr "."))
         else Ok (VStr "")) (λ prefix,
  rbind (getitem r "res") (λ res,
  Ok (Markdown [VStr "### `"; prefix; res; VStr "`"])))).

(** The body of the display loop. *)
Definition display_result (w : world) (r : document) : M unit :=
  h ← lift (heading r);
  _ ← display w h;
  v ← lift (getitem r "value");
  _ ← display w (Markdown [v]);
  display w (Markdown [VStr "---"]).

(** The query cell. What [db.execute] returns for a [find] is a cursor
    that yields its documents once: [sorted] takes them all out, and the
    global [result] is left with nothing more to yield. *)
Definition cell_query (w : world) (k : kernel) : M kernel :=
  let search_term := "Query the database" in
  let num_results := 5%Z in
  _ ← global "db" (g_db k);
  coll ← global "doc_collection" (g_doc_collection k);
  m ← global "model" (g_model k);
  result ← db_execute w k
    (LikeFind coll {[ "value" := VStr search_term ]}
              ("pymongo-docs-" +:+ identifier m) num_results);
  _ ← display w (Markdown [VStr "---"]);
  ranked ← lift (sorted neg_score result);
  _ ← for_each ranked (display_result w);
  ret {| environ := environ k; g_db := g_db k;
         g_doc_collection := g_doc_collection k; g_data := g_data k;
         g_model := g_model k; g_result := Some [] |}.

(** ** Running cells in order: the first exception stops the run *)

Definition cell : Type := world → kernel → M kernel.

Fixpoint run_cells (cells : list cell) (w : world) (k : kernel) : M kernel :=
  match cells with
  | [] => ret k
  | c :: cells' => k' ← c w k; run_cells cells' w k'
  end.

Definition notebook : list cell :=
  [ cell_install; cell_setup; cell_connect; cell_load; cell_insert;
    cell_find_one; cell_model; cell_sentence_transformers; cell_index;
    cell_query ].

(** Run All on a fresh kernel started with environment [env]. *)
Definition run_all (w : world) (env : gmap string string)
  : list event * result kernel :=
  run_cells notebook w (fresh env) [].

(** ** Vocabulary for the traces of a run *)

(** What the install cell leaves in the trace. *)
Definition installs : list event :=
  [EShell "pip install superduperdb"; EShell "pip install ipython openai==1.1.2"].


Definition is_display (e : event) : Prop :=
  match e with EDisplay _ => True | _ => False end.

(** [display(Markdown('---'))] as an event. *)
Definition rule : event := EDisplay (Markdown [VStr "---"]).

(** The query of the query cell, for a collection and a model. *)
Definition like_query (coll : string) (m : Model) : query :=
  LikeFind coll {[ "value" := VStr "Query the database" ]}
           ("pymongo-docs-" +:+ identifier m) 5.

(** The kernel the query cell leaves when it returns. *)
Definition after_query (k : kernel) : kernel :=
  {| environ := environ k; g_db := g_db k;
     g_doc_collection := g_doc_collection k; g_data := g_data k;
     g_model := g_model k; g_result := Some [] |}.

(** What the query cell does once the query has answered [ranked], were
    [ranked] what the loop iterates: the rule, then the loop. *)
Definition show_ranked (w : world) (k : kernel) (ranked : list document)
  : M kernel :=
  _ ← display w (Markdown [VStr "---"]);
  _ ← for_each ranked (display_result w);
  ret (after_query k).

(** ** A session by hand

    Cells run one at a time, in any order and any number of times. A
    cell that raises is abandoned where it raised and the kernel goes on
    with the globals assigned so far. Every cell assigns its globals
    after its last call that can raise, except the query cell, which
    assigns [result] first: what [result] holds after a query cell that
    raised (a cursor, more or less consumed) is left open here, and no
    cell reads it. *)
Definition same_globals (k k' : kernel) : Prop :=
  environ k' = environ k ∧ g_db k' = g_db k ∧
  g_doc_collection k' = g_doc_collection k ∧ g_data k' = g_data k ∧
  g_model k' = g_model k.

(** [session w k0 k h]: a session started on kernel [k0] has reached
    kernel [k] and left the trace [h]. *)
Inductive session (w : world) (k0 : kernel) : kernel → list event → Prop :=
  | session_start : session w k0 k0 []
  | session_returns (c : cell) k h k' h' :
      session w k0 k h → c ∈ notebook → c w k h = (h', Ok k') →
      session w k0 k' h'
  | session_raises (c : cell) k h e k' h' :
      session w k0 k h → c ∈ notebook → c w k h = (h', Raise e) →
      same_globals k k' → session w k0 k' h'.

(** ** A sample outside, for concrete runs *)

Definition scored_result (s : number) (res : string) : document :=
  {[ "score" := VNum s; "parent" := VNone; "res" := VStr res;
     "value" := VStr "text" ]}.

Definition sample_result (s : Q) (res : string) : document :=
  scored_result (Fin s) res.

(** An outside where every call returns, and the [like] query returns
    [docs]. *)
Definition world_returning (docs : list document) : world := {|
  w_connect := λ _ _ _, Ok tt;
  w_read_json := λ _ _, Ok [];
  w_new_model := λ _ name, Ok {| object_id := 1; identifier := name |};
  w_execute := λ _ q,
    match q with
    | LikeFind _ _ _ _ => Ok docs
    | _ => Ok []
    end;
  w_add := λ _ _, Ok tt;
  w_show := λ _ _, Ok tt;
  w_display := λ _ _, Ok tt
|}.

Definition sample_world : world :=
  world_returning
    [sample_result (1#2) "find"; sample_result (3#4) "find_one";
     sample_result (1#4) "count"].

Definition sample_environ : gmap string string :=
  {[ "OPENAI_API_KEY" := "sk-sample" ]}.

Definition sample_model : Model :=
  {| object_id := 1; identifier := "text-embedding-ada-002" |}.

(** A kernel in which the cells before the query cell have run. *)
Definition sample_kernel : kernel :=
  {| environ := sample_environ;
     g_db := Some ("mongomock://test", "filesystem://./data/");
     g_doc_collection := Some "documents";
     g_data := Some [];
     g_model := Some sample_model;
     g_result := None |}.

(** Results of which the second has a not-a-number for a score. *)
Definition nan_results : list document :=
  [scored_result (Fin 1) "find"; scored_result NaN "find_one";
   scored_result (Fin 2) "count"].

End Notebook.


(* ===================================================================== *)
(** * Part II: the index behind [like(...)]                               *)
(* ===================================================================== *)

(** The notebook only calls the vector search; the store, the index and
    the search itself are not among the repository's files. What the
    properties of Part III need of them is modelled here from the
    specification (sections 3, 4.1, 4.2 and 7). Vector components and
    scores are real numbers. The scoring function is a parameter of the
    ranking: [similarity] below is the exact one, and what an
    implementation computes in floating point, rounding included, is
    another one as long as its scores are numbers; the ranking does not
    depend on which it is. *)

#[global] Instance R_eq_dec : EqDecision R := Req_EM_T.

Abbreviation doc_id := string (only parsing).
Abbreviation field_key := string (only parsing).
Abbreviation vector := (list R) (only parsing).

(** Modelled from the spec: the error taxonomy of section 7 (no code of
    the store or the index is in the repository). *)
Inductive error : Type :=
  | DimensionMismatch
  | InvalidVector
  | NotFound
  | IndexNotReady
  | EmbeddingVersionMismatch
  | EmbeddingProviderError (transient : bool)
  | BuildInProgress.

Inductive outcome (A : Type) : Type :=
  | Done (a : A)
  | Failed (e : error).
Arguments Done {A} a.
Arguments Failed {A} e.

Definition obind {A B} (o : outcome A) (f : A → outcome B) : outcome B :=
  match o with Done a => f a | Failed e => Failed e end.

Module VectorStore.

(** Modelled from the spec: the Vector Store of section 4.1, vectors keyed
    by (document identifier, field key), with the dimension the first
    [put] establishes. *)
Record store : Type := {
  dimension : option nat;
  vectors : gmap (doc_id * field_key) vector
}.

Definition empty : store := {| dimension := None; vectors := ∅ |}.

(** Modelled from the spec: [put(id, key, vector)] inserts or overwrites
    an entry and fails with DimensionMismatch if the vector's length
    differs from the store's established dimension. *)
Definition put (id : doc_id) (key : field_key) (v : vector) (s : store)
  : outcome store :=
  match dimension s with
  | None =>
      Done {| dimension := Some (length v); vectors := <[(id, key) := v]> (vectors s) |}
  | Some d =>
      if decide (length v = d)
      then Done {| dimension := Some d; vectors := <[(id, key) := v]> (vectors s) |}
      else Failed DimensionMismatch
  end.

(** Modelled from the spec: [get(id, key)] returns the stored vector or
    signals NotFound. *)
Definition get (id : doc_id) (key : field_key) (s : store) : outcome vector :=
  match vectors s !! (id, key) with
  | Some v => Done v
  | None => Failed NotFound
  end.

(** Modelled from the spec: [delete(id, key)] removes an entry, no-op if
    absent. *)
Definition delete (id : doc_id) (key : field_key) (s : store) : store :=
  {| dimension := dimension s; vectors := base.delete (id, key) (vectors s) |}.

(** Modelled from the spec: [iterate()] produces the finite sequence of
    all entries. *)
Definition iterate (s : store) : list (doc_id * field_key * vector) :=
  map_to_list (vectors s).

End VectorStore.

Module SimilarityIndex.

(** Modelled from the spec: the distance metrics of section 4.2. *)
Inductive metric : Type := Cosine | DotProduct | Euclidean.

(** Modelled from the spec: an index snapshot, the Index Entries of
    section 3, one vector per (document identifier, field key). *)
Abbreviation index := (gmap (doc_id * field_key) vector).

(** Modelled from the spec: one element of a Query Result as the index
    returns it (document identifier, field key, similarity score); the
    parent reference is joined in by the Query Engine. *)
Record hit : Type := {
  hit_id : doc_id;
  hit_key : field_key;
  hit_score : R
}.

(** Modelled from the spec: the arithmetic of the metrics (dot product,
    Euclidean norm, difference of two vectors). *)
Fixpoint dot (u v : vector) : R :=
  match u, v with
  | x :: u', y :: v' => (x * y + dot u' v')%R
  | _, _ => 0%R
  end.

Definition norm (u : vector) : R := sqrt (dot u u).

Fixpoint sub (u v : vector) : vector :=
  match u, v with
  | x :: u', y :: v' => (x - y)%R :: sub u' v'
  | _, _ => []
  end.

(** Modelled from the spec: the similarity score under each metric, larger
    is more similar: the cosine of the angle, the dot product, and the
    negated Euclidean distance. *)
Definition similarity (m : metric) (q v : vector) : R :=
  match m with
  | Cosine => (dot q v / (norm q * norm v))%R
  | DotProduct => dot q v
  | Euclidean => (- norm (sub q v))%R
  end.

(** Modelled from the spec: the zero vector, which cosine rejects. *)
Definition is_zero (v : vector) : bool :=
  forallb (λ x, bool_decide (x = 0%R)) v.

(** Modelled from the spec: the order of a Query Result, descending by
    score, ties broken by ascending document identifier (and, for two
    entries of one document, by field key). *)
Definition ranks_before (a b : hit) : Prop :=
  (hit_score b < hit_score a)%R ∨
  (hit_score a = hit_score b ∧
   (strict String.le (hit_id a) (hit_id b) ∨
    (hit_id a = hit_id b ∧ String.le (hit_key a) (hit_key b)))).

#[global] Instance ranks_before_dec : RelDecision ranks_before.
Proof.
  intros a b. unfold ranks_before.
  destruct (Rlt_dec (hit_score b) (hit_score a)); [left; by left|].
  destruct (decide (hit_score a = hit_score b)); [|right; tauto].
  destruct (decide (strict String.le (hit_id a) (hit_id b))); [left; tauto|].
  destruct (decide (hit_id a = hit_id b)); [|right; tauto].
  destruct (decide (String.le (hit_key a) (hit_key b))); [left; tauto|right; tauto].
Defined.

(** Modelled from the spec: [build(entries)] constructs the index from a
    snapshot of entries (full rebuild). *)
Definition build (entries : list (doc_id * field_key * vector)) : index :=
  list_to_map entries.

(** A scoring function: the score of an entry's vector for a query,
    under a metric. *)
Abbreviation scoring := (metric → vector → vector → R) (only parsing).

(** Modelled from the spec: the hit of one entry for a query. *)
Definition score_entry_by (sim : scoring) (m : metric) (q : vector)
  (e : doc_id * field_key * vector) : hit :=
  {| hit_id := e.1.1; hit_key := e.1.2; hit_score := sim m q e.2 |}.

(** Modelled from the spec: the exact brute-force scan: score every
    entry of an enumeration of the snapshot, rank the hits, keep the
    first [k]. *)
Definition scan_by (sim : scoring) (entries : list (doc_id * field_key * vector))
  (q : vector) (k : nat) (m : metric) : list hit :=
  take k (merge_sort ranks_before (score_entry_by sim m q <$> entries)).

(** Modelled from the spec: [search(query_vector, k, metric)] returns the
    top-k entries by similarity. A query whose length differs from an
    entry's fails with DimensionMismatch; under the cosine metric a zero
    query or a zero entry fails with InvalidVector. *)
Definition search_by (sim : scoring) (idx : index) (q : vector) (k : nat)
  (m : metric) : outcome (list hit) :=
  let entries := map_to_list idx in
  if negb (forallb (λ e, bool_decide (length e.2 = length q)) entries)
  then Failed DimensionMismatch
  else if match m with
          | Cosine => is_zero q || existsb (λ e, is_zero e.2) entries
          | _ => false
          end
  then Failed InvalidVector
  else Done (scan_by sim entries q k m).

(** Modelled from the spec: the search with exact scores. *)
Definition search : index → vector → nat → metric → outcome (list hit) :=
  search_by similarity.

(** ** The example scenario of section 8 *)

(** Modelled from the spec: the store of the example, ids a, b, c under
    one field key. *)
Definition example_store (fk : field_key) : outcome VectorStore.store :=
  obind (VectorStore.put "a" fk [1; 0]%R VectorStore.empty) (λ s1,
  obind (VectorStore.put "b" fk [0; 1]%R s1) (λ s2,
  VectorStore.put "c" fk [9/10; 1/10]%R s2)).

Definition example_entries (fk : field_key) : list (doc_id * field_key * vector) :=
  [("a", fk, [1; 0]%R); ("b", fk, [0; 1]%R); ("c", fk, [9/10; 1/10]%R)].

Definition example_vectors (fk : field_key) : index :=
  <[("c", fk) := [9/10; 1/10]%R]>
    (<[("b", fk) := [0; 1]%R]> (<[("a", fk) := [1; 0]%R]> ∅)).

Definition example_hit (id : doc_id) (fk : field_key) (v : vector) : hit :=
  {| hit_id := id; hit_key := fk; hit_score := similarity Cosine [1; 0]%R v |}.

(** ** A snapshot with a tie *)



End SimilarityIndex.

(* ===================================================================== *)
(** * Part III: properties                                                *)
(* ===================================================================== *)

Module NotebookFacts.
Import Notebook.

(** ** The order of numbers *)

Lemma Qltb_lt x y : Qltb x y = true ↔ (x < y)%Q.
Proof. unfold Qltb, Qlt. apply Z.ltb_lt. Qed.

Lemma Qltb_ge x y : Qltb x y = false ↔ (y <= x)%Q.
Proof. unfold Qltb, Qle. by rewrite Z.ltb_ge. Qed.

Ltac num_order :=
  repeat match goal with x : number |- _ => destruct x as [?|[]|] end;
  simpl in *; try done;
  rewrite ?Bool.negb_true_iff, ?Bool.negb_false_iff in *;
  rewrite ?Qltb_lt, ?Qltb_ge in *; try Lqa.lra.

Lemma num_lt_irrefl x : num_lt x x = false.
Proof. num_order. Qed.

Lemma num_lt_asym x y : num_lt x y = true → num_lt y x = false.
Proof. num_order. Qed.

(** [x <= y] and [y <= z] give [x <= z], unless [y] is not-a-number. *)
Lemma num_nlt_trans x y z :
  y ≠ NaN → num_lt y x = false → num_lt z y = false → num_lt z x = false.
Proof. num_order. Qed.

(** [x < y] and [y <= z] give [x < z], unless [z] is not-a-number. *)
Lemma num_lt_nlt_trans x y z :
  z ≠ NaN → num_lt x y = true → num_lt z y = false → num_lt x z = true.
Proof. num_order. Qed.

Lemma num_le_nlt x y : num_le x y = true → num_lt y x = false.
Proof. num_order. Qed.

Lemma num_nlt_le x y : x ≠ NaN → y ≠ NaN → num_lt y x = false → num_le x y = true.
Proof. num_order. Qed.

Lemma num_le_ordered x y : num_le x y = true → x ≠ NaN ∧ y ≠ NaN.
Proof. num_order. Qed.

Lemma num_neg_lt x y : num_lt (num_neg x) (num_neg y) = num_lt y x.
Proof.
  destruct x as [p|[]|], y as [q|[]|]; simpl; try done.
  destruct (Qltb (- p) (- q)) eqn:E1, (Qltb q p) eqn:E2; try done;
    rewrite ?Qltb_lt, ?Qltb_ge in *; Lqa.lra.
Qed.

Lemma num_neg_nan x : num_neg x = NaN ↔ x = NaN.
Proof. by destruct x as [?|[]|]. Qed.

Lemma StronglySorted_lookup_lt' {A} (rel : relation A) (l : list A) i j a b :
  StronglySorted rel l → (i < j)%nat → l !! i = Some a → l !! j = Some b →
  rel a b.
Proof.
  intros Hs. revert i j. induction Hs as [|x l Hl IH Hx]; intros i j Hij Hi Hj.
  - by rewrite lookup_nil in Hi.
  - destruct j as [|j]; [lia|]. destruct i as [|i]; simpl in *.
    + simplify_eq. rewrite Forall_forall in Hx. apply Hx.
      by eapply list_elem_of_lookup_2.
    + apply (IH i j); [lia|done..].
Qed.

(** ** The stable sort *)

Section sorting.
Context {A : Type}.
Implicit Types (x y : number * A) (l run acc : list (number * A)).

(** No key is not-a-number. *)
Definition ordered l : Prop := Forall (λ p, fst p ≠ NaN) l.

Lemma insert_right_perm x run : insert_right x run ≡ₚ x :: run.
Proof.
  induction run as [|y run IH]; simpl; [done|].
  destruct (num_lt x.1 y.1); [done|].
  rewrite IH. apply Permutation_swap.
Qed.

Lemma fold_insert_perm l acc :
  fold_left (λ run x, insert_right x run) l acc ≡ₚ acc ++ l.
Proof.
  revert acc. induction l as [|x l IH]; intros acc; simpl.
  - by rewrite app_nil_r.
  - rewrite IH, insert_right_perm. by rewrite <- Permutation_middle.
Qed.

Lemma stable_sort_perm l : stable_sort l ≡ₚ l.
Proof. apply fold_insert_perm. Qed.

Lemma insert_right_ordered x run :
  x.1 ≠ NaN → ordered run → ordered (insert_right x run).
Proof.
  intros Hx Hr. unfold ordered. rewrite insert_right_perm. by constructor.
Qed.

Lemma insert_right_sorted x run :
  x.1 ≠ NaN → ordered run →
  StronglySorted key_le run → StronglySorted key_le (insert_right x run).
Proof.
  intros Hx Ho Hs. induction Hs as [|y run Hl IH Hy]; simpl.
  - repeat constructor.
  - apply Forall_cons in Ho as [Hyn Ho].
    destruct (num_lt x.1 y.1) eqn:E.
    + constructor; [by constructor|].
      constructor; [by apply num_lt_asym|].
      rewrite Forall_forall in Hy, Ho |- *. intros z Hz.
      unfold key_le in *. apply num_lt_asym.
      apply (num_lt_nlt_trans _ y.1); [by apply Ho|done|by apply Hy].
    + constructor; [by apply IH|].
      rewrite insert_right_perm. by constructor.
Qed.

Lemma fold_insert_sorted l acc :
  ordered l → ordered acc → StronglySorted key_le acc →
  StronglySorted key_le (fold_left (λ run x, insert_right x run) l acc)
  ∧ ordered (fold_left (λ run x, insert_right x run) l acc).
Proof.
  intros Hl. revert acc. induction Hl as [|x l Hx _ IH]; intros acc Ha Hs; simpl.
  - done.
  - apply IH; [by apply insert_right_ordered|by apply insert_right_sorted].
Qed.

Lemma stable_sort_sorted l : ordered l → StronglySorted key_le (stable_sort l).
Proof. intros Hl. apply fold_insert_sorted; [done|constructor|constructor]. Qed.

(** *** [binarysort] inserts like the stable sort *)

Lemma insert_right_at x run (i : nat) :
  Forall (λ y, num_lt x.1 y.1 = false) (take i run) →
  Forall (λ y, num_lt x.1 y.1 = true) (drop i run) →
  insert_right x run = take i run ++ x :: drop i run.
Proof.
  revert i. induction run as [|y run IH]; intros i Ht Hd.
  - by rewrite take_nil, drop_nil.
  - destruct i as [|i]; simpl in *.
    + apply Forall_cons in Hd as [-> _]. done.
    + apply Forall_cons in Ht as [-> Ht]. f_equal. by apply IH.
Qed.

Lemma bisect_spec fuel (pivot : number) run (l r : nat) :
  pivot ≠ NaN → ordered run → StronglySorted key_le run →
  (r - l ≤ fuel)%nat → (l ≤ r ≤ length run)%nat →
  Forall (λ y, num_lt pivot y.1 = false) (take l run) →
  Forall (λ y, num_lt pivot y.1 = true) (drop r run) →
  let i := bisect fuel pivot run l r in
  Forall (λ y, num_lt pivot y.1 = false) (take i run) ∧
  Forall (λ y, num_lt pivot y.1 = true) (drop i run).
Proof.
  intros Hp Ho Hs. unfold ordered in Ho. rewrite Forall_forall in Ho. revert l r.
  induction fuel as [|fuel IH]; intros l r Hf Hlr Hl Hr; cbn [bisect].
  - assert (l = r) as -> by lia. done.
  - destruct (l <? r)%nat eqn:E.
    2:{ apply Nat.ltb_ge in E. assert (l = r) as -> by lia. done. }
    apply Nat.ltb_lt in E.
    set (p := (l + (r - l) / 2)%nat).
    assert (l ≤ p < r)%nat as Hpr.
    { unfold p. pose proof (Nat.Div0.div_lt_upper_bound (r - l) 2 (r - l)).
      pose proof (Nat.Div0.div_le_upper_bound (r - l) 2 (r - l)). lia. }
    destruct (run !! p) as [x|] eqn:Hx.
    2:{ apply lookup_ge_None in Hx. lia. }
    destruct (num_lt pivot x.1) eqn:Hlt.
    + apply IH; [lia|lia|done|].
      rewrite Forall_forall. intros y Hy.
      apply list_elem_of_lookup in Hy as [j Hj]. rewrite lookup_drop in Hj.
      destruct j as [|j].
      { rewrite Nat.add_0_r in Hj. by simplify_eq. }
      apply (num_lt_nlt_trans _ x.1); [|done|].
      * eapply Ho, list_elem_of_lookup_2, Hj.
      * eapply (StronglySorted_lookup_lt' key_le run p (p + S j)); [done|lia|done..].
    + apply IH; [lia|lia| |done].
      rewrite Forall_forall. intros y Hy.
      apply list_elem_of_lookup in Hy as [j Hj].
      apply lookup_take_Some in Hj as [Hj Hjp].
      destruct (decide (j = p)) as [->|Hne]; [by simplify_eq|].
      apply (num_nlt_trans _ x.1); [| |done].
      * eapply Ho, list_elem_of_lookup_2, Hx.
      * eapply (StronglySorted_lookup_lt' key_le run j p); [done|lia|done..].
Qed.

Lemma binary_insert_stable x run :
  x.1 ≠ NaN → ordered run → StronglySorted key_le run →
  binary_insert run x = insert_right x run.
Proof.
  intros Hx Ho Hs. unfold binary_insert. symmetry.
  destruct (bisect_spec (length run) x.1 run 0 (length run)) as [Ht Hd];
    [done|done|done|lia|lia|by rewrite take_0|by rewrite drop_all|].
  by apply insert_right_at.
Qed.

Lemma binarysort_stable rest run :
  ordered rest → ordered run → StronglySorted key_le run →
  binarysort run rest = fold_left (λ run x, insert_right x run) rest run.
Proof.
  unfold binarysort. intros Hr. revert run.
  induction Hr as [|x rest Hx _ IH]; intros run Ho Hs; simpl; [done|].
  rewrite binary_insert_stable by done.
  apply IH; [by apply insert_right_ordered|by apply insert_right_sorted].
Qed.

(** *** The run that [count_run] finds is what the stable sort makes of it *)

Lemma fold_insert_presorted l acc :
  StronglySorted key_le (acc ++ l) →
  fold_left (λ run x, insert_right x run) l acc = acc ++ l.
Proof.
  revert acc. induction l as [|x l IH]; intros acc Hs; simpl.
  - by rewrite app_nil_r.
  - assert (insert_right x acc = acc ++ [x]) as ->.
    { rewrite (insert_right_at x acc (length acc)).
      - by rewrite firstn_all, drop_all.
      - rewrite firstn_all. rewrite Forall_forall. intros y Hy.
        apply (StronglySorted_app_1_elem_of _ _ _ y x Hs Hy). left.
      - rewrite drop_all. constructor. }
    rewrite IH; [by rewrite <- app_assoc|]. by rewrite <- app_assoc.
Qed.

Lemma run_ascending_sorted prev l :
  prev.1 ≠ NaN → ordered l →
  StronglySorted key_le (prev :: take (run_ascending prev.1 l) l).
Proof.
  intros Hp Hl. revert prev Hp.
  induction Hl as [|p l Hpn _ IH]; intros prev Hp; simpl.
  - repeat constructor.
  - destruct (num_lt p.1 prev.1) eqn:E; simpl; [repeat constructor|].
    specialize (IH p Hpn). constructor; [done|].
    constructor; [done|].
    apply StronglySorted_inv in IH as [_ IH].
    eapply Forall_impl; [exact IH|]. intros z Hz. unfold key_le in *.
    by apply (num_nlt_trans _ p.1).
Qed.

Lemma run_descending_reversed prev l acc :
  fold_left (λ run x, insert_right x run)
            (take (run_descending prev.1 l) l) (prev :: acc)
  = reverse (take (run_descending prev.1 l) l) ++ prev :: acc.
Proof.
  revert prev acc. induction l as [|p l IH]; intros prev acc; simpl; [done|].
  destruct (num_lt p.1 prev.1) eqn:E; simpl; [|done].
  rewrite E, IH, reverse_cons, <- app_assoc. done.
Qed.

(** What [list_sort] starts from: the run at the head of the list, put
    in order. *)
Lemma count_run_stable l n (descending : bool) :
  ordered l → count_run l = (n, descending) →
  stable_sort (take n l) = (if descending then reverse (take n l) else take n l).
Proof.
  intros Ho. destruct l as [|p0 [|p1 l]]; simpl; intros Hc.
  - simplify_eq. done.
  - simplify_eq. done.
  - apply Forall_cons in Ho as [H0 Ho]. pose proof Ho as Ho1.
    apply Forall_cons in Ho1 as [H1 Ho'].
    destruct (num_lt p1.1 p0.1) eqn:E; simplify_eq.
    + unfold stable_sort. simpl. rewrite E.
      rewrite (run_descending_reversed p1 l [p0]).
      rewrite !reverse_cons, <- !app_assoc. done.
    + unfold stable_sort. apply (fold_insert_presorted _ []). simpl.
      pose proof (run_ascending_sorted p1 l H1 Ho') as Hs.
      constructor; [done|]. constructor; [done|].
      apply StronglySorted_inv in Hs as [_ Hs].
      eapply Forall_impl; [exact Hs|]. intros z Hz. unfold key_le in *.
      by apply (num_nlt_trans _ p1.1).
Qed.

(** On keys without a not-a-number, [list_sort] is the stable sort. *)
Lemma list_sort_stable l : ordered l → list_sort l = stable_sort l.
Proof.
  intros Ho. unfold list_sort.
  destruct (length l <? 2)%nat eqn:E.
  { apply Nat.ltb_lt in E. destruct l as [|p0 [|p1 l]]; simpl in E; [done|done|lia]. }
  destruct (count_run l) as [n descending] eqn:Hc.
  pose proof (count_run_stable l n descending Ho Hc) as Hrun.
  rewrite <- Hrun.
  assert (ordered (take n l)) as Ht.
  { unfold ordered. rewrite <- (take_drop n l) in Ho. by apply Forall_app in Ho as [? _]. }
  assert (ordered (drop n l)) as Hd.
  { unfold ordered. rewrite <- (take_drop n l) in Ho. by apply Forall_app in Ho as [_ ?]. }
  rewrite binarysort_stable.
  - unfold stable_sort at 2. rewrite <- (take_drop n l) at 3.
    by rewrite fold_left_app.
  - done.
  - unfold ordered. rewrite stable_sort_perm. done.
  - by apply stable_sort_sorted.
Qed.


(** A sorted list is its own first run: [list_sort] returns it as it is,
    whatever its keys. *)
Lemma run_ascending_all prev l :
  StronglySorted key_le (prev :: l) → run_ascending prev.1 l = length l.
Proof.
  revert prev. induction l as [|p l IH]; intros prev Hs; simpl; [done|].
  apply StronglySorted_inv in Hs as [Hl Hp].
  apply Forall_cons in Hp as [Hp _]. unfold key_le in Hp. rewrite Hp.
  by rewrite IH.
Qed.

Lemma list_sort_presorted l : StronglySorted key_le l → list_sort l = l.
Proof.
  intros Hs. unfold list_sort.
  destruct l as [|p0 [|p1 l]]; [done|done|].
  change (length (p0 :: p1 :: l) <? 2)%nat with false. cbn [count_run].
  pose proof Hs as Hs'. apply StronglySorted_inv in Hs' as [Hs1 H0].
  apply Forall_cons in H0 as [H0 _]. unfold key_le in H0. rewrite H0.
  rewrite (run_ascending_all p1 l Hs1).
  change (2 + length l)%nat with (length (p0 :: p1 :: l)).
  by rewrite firstn_all, drop_all.
Qed.

(** *** The stable sort keeps elements of equal keys in their order *)

Lemma insert_right_position x run :
  ordered run → StronglySorted key_le run →
  ∃ i : nat, insert_right x run = take i run ++ x :: drop i run ∧
             Forall (λ y, num_lt x.1 y.1 = true) (drop i run).
Proof.
  intros Ho Hs. induction Hs as [|y run Hl IH Hy]; simpl.
  - by exists 0%nat.
  - apply Forall_cons in Ho as [Hyn Ho].
    destruct (num_lt x.1 y.1) eqn:E.
    + exists 0%nat. split; [done|]. simpl. constructor; [done|].
      rewrite Forall_forall in Hy, Ho |- *. intros z Hz.
      apply (num_lt_nlt_trans _ y.1); [by apply Ho|done|by apply Hy].
    + destruct (IH Ho) as (i & -> & Hd). by exists (S i).
Qed.

Section stability.
Context (P : number * A → Prop) `{!∀ x, Decision (P x)}.
Hypothesis P_tied : ∀ x y, P x → P y → num_lt x.1 y.1 = false.

Lemma insert_right_filter x run :
  ordered run → StronglySorted key_le run →
  filter P (insert_right x run) = filter P (run ++ [x]).
Proof.
  intros Ho Hs. destruct (insert_right_position x run Ho Hs) as (i & -> & Hd).
  rewrite <- (take_drop i run) at 3.
  rewrite <- app_assoc, !filter_app, filter_cons, (filter_cons _ x), filter_nil.
  f_equal. destruct (decide (P x)) as [Hx|Hx]; [|by rewrite app_nil_r].
  assert (filter P (drop i run) = []) as ->; [|done].
  clear -Hd Hx P_tied. induction Hd as [|y l Hy _ IH]; [done|].
  rewrite filter_cons, IH. destruct (decide (P y)) as [Py|]; [|done].
  by rewrite (P_tied x y) in Hy.
Qed.

Lemma fold_insert_filter l acc :
  ordered l → ordered acc → StronglySorted key_le acc →
  filter P (fold_left (λ run x, insert_right x run) l acc) = filter P (acc ++ l).
Proof.
  intros Hl. revert acc.
  induction Hl as [|x l Hx _ IH]; intros acc Ha Hs; simpl.
  - by rewrite app_nil_r.
  - rewrite IH; [|by apply insert_right_ordered|by apply insert_right_sorted].
    rewrite filter_app, insert_right_filter by done.
    by rewrite <- filter_app, <- app_assoc.
Qed.

Lemma stable_sort_filter l : ordered l → filter P (stable_sort l) = filter P l.
Proof.
  intros Hl. apply (fold_insert_filter l []); [done|constructor|constructor].
Qed.
End stability.
End sorting.

(** ** The keys and the order of the results *)

(** What [sorted] pairs each result with: minus its score. *)
Definition keyed (result : list document) : list (number * document) :=
  (λ r, (num_neg (default NaN (score r)), r)) <$> result.

Lemma decorate_scored r s :
  score r = Some s → decorate neg_score r = Ok (num_neg s, r).
Proof.
  unfold score, decorate, neg_score, getitem.
  destruct (r !! "score") as [[| |q]|]; intros; by simplify_eq.
Qed.

Lemma rmap_decorate (result : list document) :
  Forall (λ r, is_Some (score r)) result →
  rmap (decorate neg_score) result = Ok (keyed result).
Proof.
  induction 1 as [|r l [s Hs] _ IH]; [done|].
  simpl. rewrite (decorate_scored _ _ Hs), IH. simpl. by rewrite Hs.
Qed.

Lemma keyed_snd result : (keyed result).*2 = result.
Proof.
  unfold keyed. rewrite <- list_fmap_compose. simpl.
  induction result as [|r l IH]; simpl; by f_equal.
Qed.

Lemma sorted_scored result :
  Forall (λ r, is_Some (score r)) result →
  sorted neg_score result = Ok ((list_sort (keyed result)).*2).
Proof. intros Hall. unfold sorted. by rewrite rmap_decorate. Qed.

Lemma ordered_scored result :
  Forall ordered_score result → Forall (λ r, is_Some (score r)) result.
Proof. intros H. eapply Forall_impl; [exact H|]. intros r (s & -> & _). by eexists. Qed.

Lemma keyed_ordered result : Forall ordered_score result → ordered (keyed result).
Proof.
  intros Hall. unfold ordered, keyed. apply Forall_fmap.
  eapply Forall_impl; [exact Hall|]. intros r (s & Hr & Hs). simpl.
  rewrite Hr. by destruct s.
Qed.

(** A key is minus the score of the result it is paired with. *)
Definition keyed_by_score (p : number * document) : Prop :=
  ∃ s, score p.2 = Some s ∧ p.1 = num_neg s.

Lemma keyed_by_scores result :
  Forall (λ r, is_Some (score r)) result → Forall keyed_by_score (keyed result).
Proof.
  intros Hall. unfold keyed. apply Forall_fmap.
  eapply Forall_impl; [exact Hall|]. intros r [s Hs]. exists s. simpl.
  by rewrite Hs.
Qed.

(** Ascending keys are descending scores. *)
Lemma keyed_descending (l : list (number * document)) :
  Forall keyed_by_score l → ordered l →
  StronglySorted key_le l → StronglySorted score_ge (l.*2).
Proof.
  intros Hall Ho Hs. induction Hs as [|p l Hl IH Hp]; simpl; [constructor|].
  apply Forall_cons in Hall as [(s & Hs & Hk) Hall].
  apply Forall_cons in Ho as [Hn Ho].
  constructor; [by apply IH|].
  apply Forall_fmap, Forall_forall. intros p' Hin.
  rewrite Forall_forall in Hp, Hall, Ho.
  destruct (Hall _ Hin) as (s' & Hs' & Hk'). specialize (Hp _ Hin).
  specialize (Ho _ Hin). simpl in Ho.
  exists s, s'. split_and!; [done..|].
  unfold key_le in Hp. rewrite Hk, Hk', num_neg_lt in Hp.
  rewrite Hk in Hn. rewrite Hk' in Ho.
  apply num_nlt_le; [by destruct s'|by destruct s|done].
Qed.

Lemma keyed_ascending (result : list document) :
  Forall (λ r, is_Some (score r)) result →
  StronglySorted score_ge result → StronglySorted key_le (keyed result).
Proof.
  intros Hall Hs. induction Hs as [|r l Hl IH Hr]; simpl; [constructor|].
  apply Forall_cons in Hall as [_ Hall].
  constructor; [by apply IH|].
  unfold keyed. apply Forall_fmap. eapply Forall_impl; [exact Hr|].
  intros r' (sa & sb & Ha & Hb & Hle). unfold key_le. simpl.
  rewrite Ha, Hb. simpl. rewrite num_neg_lt. by apply num_le_nlt.
Qed.

(** On results whose scores are numbers other than not-a-number,
    [sorted] returns, and what it returns is the stable sort by
    descending score. *)
Lemma sorted_ordered result :
  Forall ordered_score result →
  sorted neg_score result = Ok ((stable_sort (keyed result)).*2)
  ∧ (stable_sort (keyed result)).*2 ≡ₚ result
  ∧ StronglySorted score_ge ((stable_sort (keyed result)).*2).
Proof.
  intros Hall. pose proof (ordered_scored _ Hall) as Hsc.
  pose proof (keyed_ordered _ Hall) as Ho.
  split_and!.
  - by rewrite sorted_scored, list_sort_stable.
  - by rewrite stable_sort_perm, keyed_snd.
  - apply keyed_descending.
    + rewrite stable_sort_perm. by apply keyed_by_scores.
    + unfold ordered. by rewrite stable_sort_perm.
    + by apply stable_sort_sorted.
Qed.

(** ** The query cell, up to its loop *)

Lemma cell_query_step w k h d coll m result :
  g_db k = Some d → g_doc_collection k = Some coll → g_model k = Some m →
  w_execute w h (like_query coll m) = Ok result →
  cell_query w k h =
    match w_display w (h ++ [EExecute (like_query coll m)]) (Markdown [VStr "---"]),
          sorted neg_score result with
    | Ok _, Ok ranked =>
        show_ranked w k ranked (h ++ [EExecute (like_query coll m)])
    | Ok _, Raise e | Raise e, _ =>
        (h ++ [EExecute (like_query coll m); rule], Raise e)
    end.
Proof.
  intros Hd Hc Hm Hw.
  unfold cell_query, show_ranked. fold (after_query k).
  generalize (after_query k). intros k'.
  unfold db_execute, display, mbind, M_bind, bind, global, call, lift, ret.
  rewrite Hd, Hc, Hm. simpl. fold (like_query coll m). rewrite Hw. simpl.
  rewrite <- app_assoc. simpl. fold rule.
  destruct (w_display w _ _) as [[]|e]; simpl; [|done].
  destruct (sorted neg_score result); simpl; [|done].
  by destruct (for_each _ _ _) as [h' [[]|]].
Qed.

Lemma show_ranked_sorted w k h (result ranked : list document) :
  sorted neg_score result = Ok ranked →
  (_ ← display w (Markdown [VStr "---"]);
   ranked ← lift (sorted neg_score result);
   _ ← for_each ranked (display_result w);
   ret (after_query k)) h = show_ranked w k ranked h.
Proof.
  intros Hs. unfold show_ranked, mbind, M_bind, bind, lift.
  destruct (display w _ h) as [h' [[]|e]]; [|done]. by rewrite Hs.
Qed.

Lemma cell_query_ranked w k h d coll m result ranked :
  g_db k = Some d → g_doc_collection k = Some coll → g_model k = Some m →
  w_execute w h (like_query coll m) = Ok result →
  sorted neg_score result = Ok ranked →
  cell_query w k h = show_ranked w k ranked (h ++ [EExecute (like_query coll m)]).
Proof.
  intros Hd Hc Hm Hw Hs.
  rewrite <- (show_ranked_sorted w k _ result ranked Hs).
  unfold cell_query. fold (after_query k). generalize (after_query k). intros k'.
  unfold db_execute, mbind, M_bind, bind, global, call, ret.
  rewrite Hd, Hc, Hm. simpl. fold (like_query coll m). by rewrite Hw.
Qed.

(** C1, as it stands, fails on a score that is not a number: a
    not-a-number is neither less nor greater than anything, so [sorted]
    leaves the results 1, not-a-number, 2 as they are, the loop of the
    query cell iterates them in that order, and the first does not have
    a score greater than or equal to the second's (nor the second to
    the third's). *)
Lemma nan_score_not_descending :
  sorted neg_score nan_results = Ok nan_results ∧
  cell_query (world_returning nan_results) sample_kernel [] =
    show_ranked (world_returning nan_results) sample_kernel nan_results
      [EExecute (like_query "documents" sample_model)] ∧
  ¬ Sorted score_ge nan_results.
Proof.
  split_and!.
  - vm_compute. reflexivity.
  - vm_compute. reflexivity.
  - intros Hs. apply Sorted_inv in Hs as [_ Hd].
    apply HdRel_inv in Hd as (sa & sb & Ha & Hb & Hle).
    vm_compute in Ha, Hb. by simplify_eq.
Qed.

(** C1, amended. Whatever order the query returned its results in, as
    long as every result's score is a number other than not-a-number:
    [sorted(result, key=lambda r: -r['score'])] returns, what it returns
    is a rearrangement of the results in which every element's score is
    greater than or equal to the score of every later element, and that
    sequence is what the loop of the query cell iterates, whatever the
    displays do. *)
Theorem query_iterates_by_descending_score w k h d coll m result :
  g_db k = Some d → g_doc_collection k = Some coll → g_model k = Some m →
  w_execute w h (like_query coll m) = Ok result →
  Forall ordered_score result →
  ∃ ranked,
    sorted neg_score result = Ok ranked ∧
    ranked ≡ₚ result ∧
    StronglySorted score_ge ranked ∧
    cell_query w k h =
      (_ ← display w (Markdown [VStr "---"]);
       _ ← for_each ranked (display_result w);
       ret (after_query k)) (h ++ [EExecute (like_query coll m)]).
Proof.
  intros Hd Hc Hm Hw Hall.
  destruct (sorted_ordered _ Hall) as (Hs & Hp & Hdesc).
  exists ((stable_sort (keyed result)).*2). split_and!; [done..|].
  by apply (cell_query_ranked w k h d coll m result).
Qed.

Lemma query_iterates_by_descending_score_witness :
  ∃ ranked,
    sorted neg_score
      [sample_result (1#2) "find"; sample_result (3#4) "find_one";
       sample_result (1#4) "count"] = Ok ranked ∧
    ranked ≡ₚ [sample_result (1#2) "find"; sample_result (3#4) "find_one";
               sample_result (1#4) "count"] ∧
    StronglySorted score_ge ranked ∧
    cell_query sample_world sample_kernel [] =
      (_ ← display sample_world (Markdown [VStr "---"]);
       _ ← for_each ranked (display_result sample_world);
       ret (after_query sample_kernel))
        ([] ++ [EExecute (like_query "documents" sample_model)]).
Proof.
  apply (query_iterates_by_descending_score sample_world sample_kernel []
           _ _ _ _ eq_refl eq_refl eq_refl eq_refl).
  repeat constructor; eexists; (split; [vm_compute; reflexivity|discriminate]).
Defined.

(** ** The setup cell *)

Lemma cell_setup_unset w k h :
  environ k !! "OPENAI_API_KEY" = None →
  cell_setup w k h = (h, Raise (Exception missing_key_message)).
Proof.
  intros Hk. unfold cell_setup.
  destruct (decide _) as [Hin|]; [|done].
  apply elem_of_dom in Hin as [? ?]. congruence.
Qed.


(** ** The display loop only displays *)

Lemma display_events w md h :
  (display w md h).1 = h ++ [EDisplay md].
Proof. done. Qed.

Lemma display_result_events w r h :
  ∃ t, (display_result w r h).1 = h ++ t ∧ Forall is_display t.
Proof.
  unfold display_result, display, mbind, M_bind, bind, lift, call.
  destruct (heading r) as [md|]; simpl.
  2:{ exists []. by rewrite app_nil_r. }
  destruct (w_display w h md) as [[]|]; simpl.
  2:{ eexists [_]. split; [done|]. repeat constructor. }
  destruct (getitem r "value") as [v|]; simpl.
  2:{ eexists [_]. split; [done|]. repeat constructor. }
  destruct (w_display w _ (Markdown [v])) as [[]|]; simpl.
  - eexists [_; _; _]. rewrite <- !app_assoc. simpl. split; [done|].
    repeat constructor.
  - eexists [_; _]. rewrite <- !app_assoc. simpl. split; [done|].
    repeat constructor.
Qed.

Lemma for_each_display_events w l h :
  ∃ t, (for_each l (display_result w) h).1 = h ++ t ∧ Forall is_display t.
Proof.
  revert h. induction l as [|r l IH]; intros h; simpl.
  - exists []. by rewrite app_nil_r.
  - unfold bind. destruct (display_result_events w r h) as (t & Ht & Hd).
    destruct (display_result w r h) as [h' [[]|e]]; simpl in *; subst h'.
    + destruct (IH (h ++ t)) as (t' & Ht' & Hd').
      exists (t ++ t'). rewrite Ht', app_assoc. split; [done|].
      by apply Forall_app.
    + by exists t.
Qed.

Lemma for_each_display_keeps w l h i e :
  h !! i = Some e → (for_each l (display_result w) h).1 !! i = Some e.
Proof.
  intros Hi. destruct (for_each_display_events w l h) as (t & -> & _).
  by apply lookup_app_l_Some.
Qed.

Lemma for_each_display_execute w l h i q :
  (for_each l (display_result w) h).1 !! i = Some (EExecute q) →
  h !! i = Some (EExecute q).
Proof.
  destruct (for_each_display_events w l h) as (t & -> & Hd).
  intros Hi. destruct (decide (i < length h)%nat) as [Hlt|Hge].
  - by rewrite lookup_app_l in Hi.
  - rewrite lookup_app_r in Hi by lia.
    rewrite Forall_forall in Hd. apply list_elem_of_lookup_2, Hd in Hi. done.
Qed.

(** Unfold the cells of a run down to the calls to the outside. *)
Ltac unroll :=
  cbv [cell_connect cell_load cell_insert cell_find_one cell_model
       cell_sentence_transformers cell_index cell_query db_execute display
       mbind M_bind bind ret emit call global lift raise
       g_db g_doc_collection g_data g_model g_result environ fresh];
  simpl.

(** Case on the next answer of the outside. *)
Ltac oracle :=
  match goal with
  | |- context [match ?x with Ok _ => _ | Raise _ => _ end] =>
      destruct x eqn:?; simpl
  end.



(** ** The index the query names *)

Ltac scan_trace H j :=
  repeat match type of H with
         | (_ :: _) !! _ = Some _ =>
             destruct j as [|j]; simpl in H; [try discriminate H|]
         end;
  try discriminate H; try (by rewrite lookup_nil in H).

(** C10. In every run, whatever the outside answers and whatever model
    object the model cell obtained: when the query cell issues its [like]
    query against some vector index name, a VectorIndex with exactly that
    identifier was registered with [db.add] earlier in the same run; the
    name is 'pymongo-docs-' followed by the identifier of the model
    object the model cell obtained, and that same object is the model of
    the registered index's listener. *)
Theorem query_targets_registered_index (w : world) (env : gmap string string) :
  ∀ j coll doc name n,
    (run_all w env).1 !! j = Some (EExecute (LikeFind coll doc name n)) →
    ∃ i m sel k kw h,
      (i < j)%nat ∧
      w_new_model w h "text-embedding-ada-002" = Ok m ∧
      name = "pymongo-docs-" +:+ identifier m ∧
      (run_all w env).1 !! i =
        Some (EAdd {| vi_identifier := name;
                      indexing_listener :=
                        {| select := sel; key := k; model := m;
                           predict_kwargs := kw |} |}).
Proof.
  intros j coll doc name n.
  unfold run_all, notebook. simpl. unfold mbind, M_bind, bind. simpl.
  unfold cell_setup. simpl. case_decide; simpl.
  2:{ unfold raise. simpl. intros Hin. scan_trace Hin j. }
  unroll.
  repeat oracle;
    try match goal with |- context [for_each ?l ?f ?h] =>
      pose proof (for_each_display_execute w l h j) as Hex;
      pose proof (for_each_display_keeps w l h 9) as Hkeep;
      destruct (for_each l f h) as [h' [[]|?]]; simpl in *
    end;
    intros Hin; try apply Hex in Hin; scan_trace Hin j.
  all: injection Hin as <- <- <- <-.
  all: exists 9%nat; eexists _, _, _, _, _; (split; [lia|]);
    (split; [eassumption|]); (split; [reflexivity|]).
  all: try apply Hkeep; reflexivity.
Qed.

Lemma query_targets_registered_index_witness :
  ∃ i m sel k kw h,
    (i < 11)%nat ∧
    w_new_model sample_world h "text-embedding-ada-002" = Ok m ∧
    "pymongo-docs-text-embedding-ada-002" = "pymongo-docs-" +:+ identifier m ∧
    (run_all sample_world sample_environ).1 !! i =
      Some (EAdd {| vi_identifier := "pymongo-docs-text-embedding-ada-002";
                    indexing_listener :=
                      {| select := sel; key := k; model := m;
                         predict_kwargs := kw |} |}).
Proof.
  apply (query_targets_registered_index sample_world sample_environ 11%nat
           "documents" {[ "value" := VStr "Query the database" ]}
           "pymongo-docs-text-embedding-ada-002" 5%Z).
  reflexivity.
Defined.

End NotebookFacts.


Module IndexFacts.
Import SimilarityIndex.

(** ** The ranking order is a total order on hits *)

Section ranking.
Implicit Types (a b c : hit).

Lemma hit_eq a b :
  hit_id a = hit_id b → hit_key a = hit_key b → hit_score a = hit_score b →
  a = b.
Proof. destruct a, b; simpl; congruence. Qed.

Lemma string_le_cases (s t : string) :
  strict String.le s t ∨ s = t ∨ strict String.le t s.
Proof.
  destruct (decide (s = t)) as [|Hne]; [tauto|].
  destruct (total String.le s t) as [H|H]; [left|right; right];
    (split; [done|]); intros H'; apply Hne; by apply (anti_symm String.le).
Qed.

#[global] Instance ranks_before_total : Total ranks_before.
Proof.
  intros a b. unfold ranks_before.
  destruct (Rtotal_order (hit_score a) (hit_score b)) as [?|[E|?]].
  - right. by left.
  - destruct (string_le_cases (hit_id a) (hit_id b)) as [?|[E'|?]].
    + left. right. auto.
    + destruct (total String.le (hit_key a) (hit_key b));
        [left|right]; right; auto.
    + right. right. auto.
  - left. by left.
Qed.

#[global] Instance ranks_before_trans : Transitive ranks_before.
Proof.
  intros a b c [Hab|[Eab Hab]] [Hbc|[Ebc Hbc]]; unfold ranks_before.
  - left. lra.
  - left. lra.
  - left. lra.
  - right. split; [congruence|].
    destruct Hab as [Hab|[Iab Kab]], Hbc as [Hbc|[Ibc Kbc]].
    + left. by etrans.
    + left. by rewrite <- Ibc.
    + left. by rewrite Iab.
    + right. split; [congruence|]. by etrans.
Qed.

#[global] Instance ranks_before_antisymm : AntiSymm (=) ranks_before.
Proof.
  intros a b [Hab|[Eab Hab]] [Hba|[Eba Hba]]; try lra.
  destruct Hab as [[H1 H2]|[Iab Kab]], Hba as [[H3 H4]|[Iba Kba]]; try done.
  - rewrite Iba in H2. by destruct H2.
  - rewrite Iab in H4. by destruct H4.
  - apply hit_eq; [done| |done]. by apply (anti_symm String.le).
Qed.

(** A ranked rearrangement of the hits is the ranking. *)
Lemma rank_unique (l l' : list hit) :
  l' ≡ₚ l → StronglySorted ranks_before l' → merge_sort ranks_before l = l'.
Proof.
  intros Hp Hs. apply (StronglySorted_unique ranks_before); [|done|].
  - apply StronglySorted_merge_sort; apply _.
  - by rewrite merge_sort_Permutation.
Qed.

Lemma ranking_sorted (l : list hit) :
  StronglySorted ranks_before (merge_sort ranks_before l).
Proof. apply StronglySorted_merge_sort; apply _. Qed.
End ranking.

(** ** The scan, whatever the scoring function *)

Section scan.
Context (sim : metric → vector → vector → R).

Lemma scan_enumeration (l l' : list (doc_id * field_key * vector)) q k m :
  l ≡ₚ l' → scan_by sim l q k m = scan_by sim l' q k m.
Proof.
  intros Hp. unfold scan_by. f_equal. apply rank_unique.
  - rewrite merge_sort_Permutation. by rewrite Hp.
  - apply ranking_sorted.
Qed.




End scan.


(** ** When [search] answers, and with what *)


Lemma search_valid (sim : metric → vector → vector → R) (idx : index) q k m :
  map_Forall (λ _ v, length v = length q) idx →
  (m = Cosine → is_zero q = false ∧ map_Forall (λ _ v, is_zero v = false) idx) →
  search_by sim idx q k m = Done (scan_by sim (map_to_list idx) q k m).
Proof.
  intros Hdim Hz. unfold search_by.
  assert (forallb (λ e : doc_id * field_key * vector,
            bool_decide (length e.2 = length q)) (map_to_list idx) = true) as ->.
  { apply forallb_forall. intros [ik v] Hin%list_elem_of_In%elem_of_map_to_list.
    apply bool_decide_eq_true. by eapply Hdim. }
  simpl. destruct m; try done.
  destruct (Hz eq_refl) as [-> Hall]. simpl.
  destruct (existsb _ _) eqn:E; [|done].
  apply existsb_exists in E
    as ([ik v] & Hin%list_elem_of_In%elem_of_map_to_list & Hv).
  apply Hall in Hin. simpl in *. congruence.
Qed.

Lemma build_iterate (s : VectorStore.store) :
  build (VectorStore.iterate s) = VectorStore.vectors s.
Proof. apply list_to_map_to_list. Qed.

(** ** The arithmetic of the example *)

Lemma Rlt_div_pos (a x n : R) : (0 < n → a * n < x → a < x / n)%R.
Proof.
  intros Hn H. apply (Rmult_lt_reg_r n); [done|].
  unfold Rdiv. rewrite Rmult_assoc, Rinv_l by lra. lra.
Qed.

Lemma Rdiv_lt_pos (a x n : R) : (0 < n → x < a * n → x / n < a)%R.
Proof.
  intros Hn H. apply (Rmult_lt_reg_r n); [done|].
  unfold Rdiv. rewrite Rmult_assoc, Rinv_l by lra. lra.
Qed.

Lemma norm_unit : norm [1; 0]%R = 1%R.
Proof.
  unfold norm. simpl.
  replace (1 * 1 + (0 * 0 + 0))%R with 1%R by lra. apply sqrt_1.
Qed.

Lemma norm_c_bounds : (9055/10000 < norm [9/10; 1/10] < 9056/10000)%R.
Proof.
  unfold norm. simpl.
  replace (9/10 * (9/10) + (1/10 * (1/10) + 0))%R with (82/100)%R by lra.
  split.
  - rewrite <- (sqrt_square (9055/10000)) by lra. apply sqrt_lt_1_alt. lra.
  - rewrite <- (sqrt_square (9056/10000)) by lra. apply sqrt_lt_1_alt. lra.
Qed.

Lemma cosine_a : similarity Cosine [1; 0]%R [1; 0]%R = 1%R.
Proof. unfold similarity. rewrite norm_unit. simpl. lra. Qed.

Lemma cosine_b : similarity Cosine [1; 0]%R [0; 1]%R = 0%R.
Proof. unfold similarity. simpl. unfold Rdiv. lra. Qed.

Lemma cosine_c :
  (9938/10000 < similarity Cosine [1; 0] [9/10; 1/10] < 9940/10000)%R.
Proof.
  unfold similarity. rewrite norm_unit. pose proof norm_c_bounds as [Hl Hu].
  simpl. set (n := norm _) in *.
  replace (1 * (9/10) + (0 * (1/10) + 0))%R with (9/10)%R by lra.
  rewrite Rmult_1_l. split.
  - apply Rlt_div_pos; lra.
  - apply Rdiv_lt_pos; lra.
Qed.

(** ** The example store and its ranking *)

Lemma example_store_done fk :
  example_store fk =
    Done {| VectorStore.dimension := Some 2%nat;
            VectorStore.vectors := example_vectors fk |}.
Proof. reflexivity. Qed.

Lemma example_vectors_list fk :
  map_to_list (example_vectors fk) ≡ₚ example_entries fk.
Proof.
  unfold example_vectors, example_entries.
  rewrite map_to_list_insert.
  2:{ rewrite !lookup_insert_ne by congruence. apply lookup_empty. }
  rewrite map_to_list_insert.
  2:{ rewrite !lookup_insert_ne by congruence. apply lookup_empty. }
  rewrite map_to_list_insert by apply lookup_empty.
  rewrite map_to_list_empty.
  exact (Permutation_rev [_; _; _]).
Qed.

Lemma example_ranking fk :
  merge_sort ranks_before
    (score_entry_by similarity Cosine [1; 0]%R <$> example_entries fk) =
  [example_hit "a" fk [1; 0]%R; example_hit "c" fk [9/10; 1/10]%R;
   example_hit "b" fk [0; 1]%R].
Proof.
  apply rank_unique.
  - simpl. apply perm_skip, Permutation_swap.
  - pose proof cosine_a. pose proof cosine_b. pose proof cosine_c.
    repeat match goal with
           | |- StronglySorted _ _ => constructor
           | |- Forall _ _ => constructor
           end; left; unfold example_hit; cbn [hit_score]; lra.
Qed.

Lemma example_search_done fk :
  search (example_vectors fk) [1; 0]%R 2 Cosine =
  Done [example_hit "a" fk [1; 0]%R; example_hit "c" fk [9/10; 1/10]%R].
Proof.
  unfold search. rewrite search_valid.
  - f_equal. rewrite (scan_enumeration _ _ _ _ _ _ (example_vectors_list fk)).
    unfold scan_by. by rewrite example_ranking.
  - unfold example_vectors. repeat apply map_Forall_insert_2; try done.
  - intros _. split.
    + unfold is_zero. simpl. by rewrite bool_decide_eq_false_2 by lra.
    + unfold example_vectors, is_zero.
      repeat apply map_Forall_insert_2; try done; simpl.
      * by rewrite bool_decide_eq_false_2 by lra.
      * rewrite bool_decide_eq_true_2 by lra.
        by rewrite bool_decide_eq_false_2 by lra.
      * by rewrite bool_decide_eq_false_2 by lra.
Qed.

(** C2. The example scenario: the three puts of a, b and c (under any one
    field key) succeed, and on the index built from that store the search
    for [1,0] with k=2 under the cosine metric returns exactly a then c;
    a's similarity is 1, c's is within 0.001 of 0.994, and b's is 0. *)
Theorem example_scenario (fk : field_key) :
  ∃ st sa sc,
    example_store fk = Done st ∧
    search (build (VectorStore.iterate st)) [1; 0]%R 2 Cosine =
      Done [ {| hit_id := "a"; hit_key := fk; hit_score := sa |};
             {| hit_id := "c"; hit_key := fk; hit_score := sc |} ] ∧
    sa = 1%R ∧ (Rabs (sc - 994/1000) < 1/1000)%R ∧
    similarity Cosine [1; 0]%R [0; 1]%R = 0%R.
Proof.
  eexists _, _, _. split; [apply example_store_done|].
  rewrite build_iterate. simpl. split; [apply example_search_done|].
  split; [apply cosine_a|]. split; [|apply cosine_b].
  pose proof cosine_c. apply Rabs_def1; lra.
Qed.

(** ** The snapshot with a tie *)





End IndexFacts.


(* ===================================================================== *)
(** * Part IV: more of the notebook                                       *)
(* ===================================================================== *)

(** Further properties of the cells of Part I: the client-side sort
    beyond its order, what the query cell displays and when it raises,
    and what holds of a session by hand, whatever order the cells are
    run in and whichever of them raise. *)

Module NotebookCoverage.
Import Notebook NotebookFacts.

(** Split a [Forall] over a concrete list into its elements. *)
Ltac each :=
  repeat match goal with |- Forall _ _ => constructor end.

(** ** Vocabulary *)

(** Python's [==] on two scores. *)
Definition same_number (x y : number) : bool := num_le x y && num_le y x.

(** The result [r] has a score equal to [s]. *)
Definition scored (s : number) (r : document) : Prop :=
  match score r with
  | Some x => same_number x s = true
  | None => False
  end.

#[global] Instance scored_dec s r : Decision (scored s r).
Proof. unfold scored. destruct (score r); apply _. Defined.

(** The key of a decorated result is equal to minus [s]. *)
Definition keyed_as (s : number) {A} (p : number * A) : Prop :=
  same_number (fst p) (num_neg s) = true.

#[global] Instance keyed_as_dec s {A} (p : number * A) : Decision (keyed_as s p).
Proof. unfold keyed_as. apply _. Defined.

(** What one pass of the display loop shows for a result it can show. *)
Definition shown (r : document) : list event :=
  match heading r, getitem r "value" with
  | Ok md, Ok v => [EDisplay md; EDisplay (Markdown [v]); rule]
  | _, _ => []
  end.

(** A result whose heading and text the loop can build: a parent that
    is None or a string, a name and a text. *)
Definition displayable (r : document) : Prop :=
  (r !! "parent" = Some VNone ∨ ∃ p, r !! "parent" = Some (VStr p)) ∧
  is_Some (r !! "res") ∧ is_Some (r !! "value").

Definition well_formed (r : document) : Prop :=
  ordered_score r ∧ displayable r.

(** The outside shows each of the displays [evs] whenever it is asked
    to: IPython does for a string that is no URL and no file name, and
    for None. *)
Definition displays_return (w : world) (evs : list event) : Prop :=
  ∀ h md, EDisplay md ∈ evs → w_display w h md = Ok tt.

Definition needs_db (e : event) : Prop :=
  match e with
  | EExecute _ | EAdd _ | EShow _ => True
  | _ => False
  end.

(** The history holds a call to [superduper] that returned. *)
Definition connected (w : world) (h : list event) : Prop :=
  ∃ h0 uri store rest,
    h = h0 ++ EConnect uri store :: rest ∧ w_connect w h0 uri store = Ok tt.

(** Every use of [db] in the history comes after such a call. *)
Definition safe (w : world) (h : list event) : Prop :=
  ∀ h1 e rest, h = h1 ++ e :: rest → needs_db e → connected w h1.

Definition good (w : world) (k : kernel) (h : list event) : Prop :=
  safe w h ∧ (is_Some (g_db k) → connected w h).

(** The history holds a [json.load] that returned [docs]. *)
Definition loaded (w : world) (docs : list document) (h : list event) : Prop :=
  ∃ h0 path rest,
    h = h0 ++ EReadJson path :: rest ∧ w_read_json w h0 path = Ok docs.

(** The history holds a model construction that returned [m]. *)
Definition obtained (w : world) (m : Model) (h : list event) : Prop :=
  ∃ h0 name rest,
    h = h0 ++ ENewModel name :: rest ∧ w_new_model w h0 name = Ok m.

(** What an event owes to the history before it. *)
Definition flows (w : world) (e : event) (h : list event) : Prop :=
  match e with
  | EExecute (InsertMany _ docs) => loaded w docs h
  | EExecute (LikeFind _ _ name _) =>
      ∃ m, obtained w m h ∧ name = "pymongo-docs-" +:+ identifier m
  | EAdd vi =>
      ∃ m, obtained w m h ∧
           vi_identifier vi = "pymongo-docs-" +:+ identifier m ∧
           model (indexing_listener vi) = m
  | _ => True
  end.

Definition sound (w : world) (h : list event) : Prop :=
  ∀ h1 e rest, h = h1 ++ e :: rest → flows w e h1.

Definition holds (w : world) (k : kernel) (h : list event) : Prop :=
  sound w h ∧
  (∀ d, g_data k = Some d → loaded w d h) ∧
  (∀ m, g_model k = Some m → obtained w m h).

(** One session by hand, run: the cells of [cells] one after the other,
    going on after a cell that raised with the kernel as it was. *)
Fixpoint by_hand (cells : list cell) (w : world) (k : kernel) (h : list event)
  : kernel * list event :=
  match cells with
  | [] => (k, h)
  | c :: cells' =>
      match c w k h with
      | (h', Ok k') => by_hand cells' w k' h'
      | (h', Raise _) => by_hand cells' w k h'
      end
  end.

(** ** Sample inputs for concrete runs *)

(** An outside whose [like] query returns a result without a score. *)
Definition unscored_world : world :=
  world_returning [sample_result (1#2) "find"; {[ "res" := VStr "count" ]}].

Definition sample_ranked : list document :=
  [sample_result (3#4) "find_one"; sample_result (1#2) "find";
   sample_result (1#4) "count"].

Definition sample_tied : list document :=
  [sample_result (1#2) "find"; sample_result (3#4) "find_one";
   sample_result (1#2) "count"].

(** ** The client-side sort, beyond its order *)

Lemma num_neg_le x y : num_le (num_neg x) (num_neg y) = num_le y x.
Proof.
  destruct x as [p|[]|], y as [q|[]|]; try done.
  change (negb (num_lt (num_neg (Fin q)) (num_neg (Fin p)))
          = negb (num_lt (Fin p) (Fin q))).
  by rewrite num_neg_lt.
Qed.

Lemma same_number_neg x y : same_number (num_neg x) (num_neg y) = same_number x y.
Proof. unfold same_number. rewrite !num_neg_le. apply andb_comm. Qed.

Lemma same_number_tied x y z :
  same_number x z = true → same_number y z = true → num_lt x y = false.
Proof.
  unfold same_number. intros [H1 H2]%andb_prop [H3 H4]%andb_prop.
  apply num_le_nlt. destruct (num_le_ordered _ _ H1), (num_le_ordered _ _ H3).
  apply num_nlt_le; [done..|].
  apply num_le_nlt in H2, H3.
  by apply (num_nlt_trans _ z).
Qed.

Lemma keyed_as_tied s {A} (x y : number * A) :
  keyed_as s x → keyed_as s y → num_lt x.1 y.1 = false.
Proof. apply same_number_tied. Qed.

Lemma filter_keyed_scored s (l : list (number * document)) :
  Forall keyed_by_score l →
  (filter (keyed_as s) l).*2 = filter (scored s) (l.*2).
Proof.
  induction 1 as [|p l (x & Hx & Hk) _ IH]; [done|].
  rewrite fmap_cons, !filter_cons, <- IH.
  assert (keyed_as s p ↔ scored s p.2) as Hiff.
  { unfold keyed_as, scored. by rewrite Hx, Hk, same_number_neg. }
  destruct (decide (keyed_as s p)), (decide (scored s p.2)); try done; tauto.
Qed.

(** X1. On results whose scores are numbers other than not-a-number the
    sort is stable: for every score, the results that have it come out
    of [sorted] in the order the query returned them. *)
Theorem sorted_stable (result ranked : list document) (s : number) :
  Forall ordered_score result →
  sorted neg_score result = Ok ranked →
  filter (scored s) ranked = filter (scored s) result.
Proof.
  intros Hall Hs. destruct (sorted_ordered _ Hall) as (Hs' & _ & _).
  rewrite Hs' in Hs. injection Hs as <-.
  pose proof (ordered_scored _ Hall) as Hsc.
  rewrite <- (keyed_snd result) at 2.
  rewrite <- !filter_keyed_scored.
  - f_equal. apply stable_sort_filter; [|by apply keyed_ordered].
    intros x y. apply keyed_as_tied.
  - by apply keyed_by_scores.
  - rewrite stable_sort_perm. by apply keyed_by_scores.
Qed.

Lemma sorted_stable_witness :
  filter (scored (Fin (1#2)))
    [sample_result (3#4) "find_one"; sample_result (1#2) "find";
     sample_result (1#2) "count"] =
  filter (scored (Fin (1#2))) sample_tied.
Proof.
  apply (sorted_stable sample_tied
           [sample_result (3#4) "find_one"; sample_result (1#2) "find";
            sample_result (1#2) "count"] (Fin (1#2))).
  - each; eexists; (split; [vm_compute; reflexivity|discriminate]).
  - vm_compute. reflexivity.
Defined.

(** X2. When the query already returns its results in descending order
    of score, the client-side sort returns them as they are: it is
    redundant then, and sorting twice is sorting once. *)
Theorem sorted_ranked_unchanged (result : list document) :
  Forall (λ r, is_Some (score r)) result →
  StronglySorted score_ge result →
  sorted neg_score result = Ok result.
Proof.
  intros Hall Hs. rewrite (sorted_scored _ Hall).
  rewrite list_sort_presorted by by apply keyed_ascending.
  by rewrite keyed_snd.
Qed.

Lemma sorted_ranked_unchanged_witness :
  sorted neg_score sample_ranked = Ok sample_ranked.
Proof.
  apply (sorted_ranked_unchanged sample_ranked).
  - each; eexists; vm_compute; reflexivity.
  - repeat match goal with
           | |- StronglySorted _ _ => constructor
           | |- Forall _ _ => constructor
           end.
    + exists (Fin (1#2)), (Fin (1#4)). by vm_compute.
    + exists (Fin (3#4)), (Fin (1#2)). by vm_compute.
    + exists (Fin (3#4)), (Fin (1#4)). by vm_compute.
Defined.

(** ** The query cell: what it displays, and when it raises *)

Lemma decorate_raises (r : document) e :
  decorate neg_score r = Raise e →
  e = KeyError "score" ∨ ∃ msg, e = TypeError msg.
Proof.
  unfold decorate, neg_score, getitem.
  destruct (r !! "score") as [[| |q]|]; simpl; intros; simplify_eq; eauto.
Qed.

Lemma decorate_unscored (r : document) :
  score r = None → ∃ e, decorate neg_score r = Raise e.
Proof.
  unfold score, decorate, neg_score, getitem.
  destruct (r !! "score") as [[| |q]|]; simpl; intros; simplify_eq; eauto.
Qed.

Lemma sorted_raises (result : list document) :
  Exists (λ r, score r = None) result →
  ∃ e, sorted neg_score result = Raise e ∧
       (e = KeyError "score" ∨ ∃ msg, e = TypeError msg).
Proof.
  intros Hex.
  assert (∃ e, rmap (decorate neg_score) result = Raise e ∧
               (e = KeyError "score" ∨ ∃ msg, e = TypeError msg)) as (e & He & Hk).
  { induction Hex as [r l Hr|r l Hex IH].
    - destruct (decorate_unscored _ Hr) as (e & He).
      exists e. cbn [rmap]. rewrite He. split; [done|]. by eapply decorate_raises.
    - cbn [rmap]. destruct (decorate neg_score r) as [p|e] eqn:Hd; simpl.
      + destruct IH as (e & -> & He). simpl. eauto.
      + exists e. split; [done|]. by eapply decorate_raises. }
  exists e. unfold sorted. by rewrite He.
Qed.

(** X3. If one result of the [like] query has no numeric score, the
    query cell raises right after the leading rule, and no result at all
    is displayed, not even those that have a score: [sorted] evaluates
    every key before the loop starts. The exception is KeyError 'score',
    or TypeError for a score that is no number, unless the display of
    the rule itself raised: then it is that display's exception. *)
Theorem query_without_score w k h d coll m result :
  g_db k = Some d → g_doc_collection k = Some coll → g_model k = Some m →
  w_execute w h (like_query coll m) = Ok result →
  Exists (λ r, score r = None) result →
  ∃ e, cell_query w k h = (h ++ [EExecute (like_query coll m); rule], Raise e) ∧
       (w_display w (h ++ [EExecute (like_query coll m)]) (Markdown [VStr "---"])
          = Ok tt →
        e = KeyError "score" ∨ ∃ msg, e = TypeError msg) ∧
       (∀ e',
          w_display w (h ++ [EExecute (like_query coll m)]) (Markdown [VStr "---"])
            = Raise e' →
          e = e').
Proof.
  intros Hd Hc Hm Hw Hex.
  destruct (sorted_raises _ Hex) as (e & He & Hk).
  rewrite (cell_query_step _ _ _ _ _ _ _ Hd Hc Hm Hw), He.
  destruct (w_display w _ _) as [[]|e'].
  - exists e. split_and!; [done..|]. intros; simplify_eq.
  - exists e'. split_and!; [done| |]; intros; by simplify_eq.
Qed.

Lemma query_without_score_witness :
  ∃ e, cell_query unscored_world sample_kernel [] =
         ([] ++ [EExecute (like_query "documents" sample_model); rule], Raise e) ∧
       (w_display unscored_world
          ([] ++ [EExecute (like_query "documents" sample_model)])
          (Markdown [VStr "---"]) = Ok tt →
        e = KeyError "score" ∨ ∃ msg, e = TypeError msg) ∧
       (∀ e',
          w_display unscored_world
            ([] ++ [EExecute (like_query "documents" sample_model)])
            (Markdown [VStr "---"]) = Raise e' →
          e = e').
Proof.
  apply (query_without_score unscored_world sample_kernel [] _ _ _
           [sample_result (1#2) "find"; {[ "res" := VStr "count" ]}]
           eq_refl eq_refl eq_refl eq_refl).
  apply Exists_cons_tl, Exists_cons_hd. vm_compute. reflexivity.
Defined.

Lemma displays_return_app w l1 l2 :
  displays_return w (l1 ++ l2) ↔ displays_return w l1 ∧ displays_return w l2.
Proof.
  unfold displays_return. split.
  - intros H. split; intros h md Hin; apply H, elem_of_app; auto.
  - intros [H1 H2] h md [?|?]%elem_of_app; auto.
Qed.

Lemma display_result_shown w r h :
  displayable r → displays_return w (shown r) →
  display_result w r h = (h ++ shown r, Ok tt).
Proof.
  intros ([Hp|[p Hp]] & [res Hres] & [v Hv]);
    unfold display_result, display, shown, heading, getitem, mbind, M_bind,
      bind, lift, call;
    rewrite Hp, Hres, Hv; simpl.
  - intros Hw. rewrite !Hw by (repeat constructor).
    by rewrite <- !app_assoc.
  - destruct (negb _); simpl; intros Hw; rewrite !Hw by (repeat constructor);
      by rewrite <- !app_assoc.
Qed.

Lemma for_each_shown w l h :
  Forall displayable l → displays_return w (l ≫= shown) →
  for_each l (display_result w) h = (h ++ (l ≫= shown), Ok tt).
Proof.
  intros Hall. revert h. induction Hall as [|r l Hr _ IH]; intros h Hw; simpl.
  - by rewrite app_nil_r.
  - rewrite bind_cons in Hw. apply displays_return_app in Hw as [Hw1 Hw2].
    unfold bind. rewrite (display_result_shown _ _ _ Hr Hw1), IH by done.
    by rewrite <- app_assoc.
Qed.

Lemma shown_length r : displayable r → length (shown r) = 3.
Proof.
  intros ([Hp|[p Hp]] & [res Hres] & [v Hv]);
    unfold shown, heading, getitem; rewrite Hp, Hres, Hv; simpl; [done|].
  by destruct (negb _).
Qed.

Lemma bind_shown_length l :
  Forall displayable l → length (l ≫= shown) = 3 * length l.
Proof.
  induction 1 as [|r l Hr _ IH]; [done|].
  rewrite bind_cons, length_app, IH, (shown_length _ Hr). simpl. lia.
Qed.

Lemma displays_return_perm w (l l' : list document) :
  l ≡ₚ l' → displays_return w (l ≫= shown) → displays_return w (l' ≫= shown).
Proof.
  intros Hp Hw h md Hin. apply Hw.
  apply list_elem_of_bind in Hin as (r & Hr & Hin).
  apply list_elem_of_bind. exists r. split; [done|]. by rewrite Hp.
Qed.

(** X4. With the connection, the collection and the model in place,
    every result of the query well formed (a score that is a number
    other than not-a-number, a parent that is None or a string, a name
    and a text), and an outside that shows the rule and the headings and
    texts of these results when asked to, the query cell raises nothing
    and what it does is exactly: the query, one rule, and then for each
    result in the sorted order its heading, its text and a rule, three
    displays per result. The global [result] is left a cursor with
    nothing more to yield. *)
Theorem query_displays_ranked w k h d coll m result :
  g_db k = Some d → g_doc_collection k = Some coll → g_model k = Some m →
  w_execute w h (like_query coll m) = Ok result →
  Forall well_formed result →
  displays_return w (rule :: (result ≫= shown)) →
  ∃ ranked,
    sorted neg_score result = Ok ranked ∧
    cell_query w k h =
      (h ++ EExecute (like_query coll m) :: rule :: (ranked ≫= shown),
       Ok {| environ := environ k; g_db := g_db k;
             g_doc_collection := g_doc_collection k; g_data := g_data k;
             g_model := g_model k; g_result := Some [] |}) ∧
    length (ranked ≫= shown) = 3 * length result.
Proof.
  intros Hd Hc Hm Hw Hwf Hshow.
  apply (displays_return_app w [rule]) in Hshow as [Hrule Hshow].
  assert (Forall ordered_score result) as Hsc
    by (eapply Forall_impl; [exact Hwf|]; by intros r [? _]).
  destruct (sorted_ordered _ Hsc) as (Hs & Hp & _).
  set (ranked := (stable_sort (keyed result)).*2) in *.
  assert (Forall displayable ranked) as Hdisp.
  { rewrite Hp. eapply Forall_impl; [exact Hwf|]. by intros r [_ ?]. }
  exists ranked. split_and!; [done| |].
  - rewrite (cell_query_ranked _ _ _ _ _ _ _ _ Hd Hc Hm Hw Hs).
    unfold show_ranked, display, mbind, M_bind, bind, call, ret.
    rewrite Hrule by (repeat constructor).
    rewrite for_each_shown; [|done|].
    + rewrite <- !app_assoc. done.
    + symmetry in Hp. by apply (displays_return_perm w _ _ Hp).
  - rewrite (bind_shown_length _ Hdisp). by rewrite Hp.
Qed.

Lemma query_displays_ranked_witness :
  ∃ ranked,
    sorted neg_score
      [sample_result (1#2) "find"; sample_result (3#4) "find_one";
       sample_result (1#4) "count"] = Ok ranked ∧
    cell_query sample_world sample_kernel [] =
      ([] ++ EExecute (like_query "documents" sample_model) :: rule
          :: (ranked ≫= shown),
       Ok {| environ := environ sample_kernel; g_db := g_db sample_kernel;
             g_doc_collection := g_doc_collection sample_kernel;
             g_data := g_data sample_kernel; g_model := g_model sample_kernel;
             g_result := Some [] |}) ∧
    length (ranked ≫= shown) =
      3 * length [sample_result (1#2) "find"; sample_result (3#4) "find_one";
                  sample_result (1#4) "count"].
Proof.
  apply (query_displays_ranked sample_world sample_kernel [] _ _ _ _
           eq_refl eq_refl eq_refl eq_refl).
  - each; (split; [eexists; (split; [vm_compute; reflexivity|discriminate])|]);
      (split_and!; [left; vm_compute; reflexivity
                   |eexists; vm_compute; reflexivity..]).
  - intros h md _. reflexivity.
Defined.

(** X5. Whenever the heading of a result is built, it is the result's
    name between backquotes after '### ', with a prefix that is either
    empty (the parent is None, the empty string or zero) or a non-empty
    parent string followed by a dot: never a dot on its own. *)
Theorem heading_prefix (r : document) (md : markdown) :
  heading r = Ok md →
  ∃ pre res,
    md = Markdown [VStr "### `"; VStr pre; res; VStr "`"] ∧
    r !! "res" = Some res ∧
    ((pre = "" ∧ ∃ v, r !! "parent" = Some v ∧ truthy v = false) ∨
     (∃ p, p ≠ "" ∧ r !! "parent" = Some (VStr p) ∧ pre = p +:+ ".")).
Proof.
  unfold heading, getitem.
  destruct (r !! "parent") as [v|] eqn:Hp; simpl; [|done].
  destruct (truthy v) eqn:Ht; simpl.
  - destruct v as [|p|q]; simpl in *; try done.
    destruct (r !! "res") as [res|]; simpl; [|done].
    intros [= <-]. exists (p +:+ "."), res. split_and!; [done..|].
    right. exists p. split_and!; [|done..].
    intros ->. done.
  - destruct (r !! "res") as [res|]; simpl; [|done].
    intros [= <-]. exists "", res. split_and!; [done..|].
    left. eauto.
Qed.

Lemma heading_prefix_witness :
  ∃ pre res,
    Markdown [VStr "### `"; VStr ""; VStr "find"; VStr "`"] =
      Markdown [VStr "### `"; VStr pre; res; VStr "`"] ∧
    sample_result (1#2) "find" !! "res" = Some res ∧
    ((pre = "" ∧ ∃ v, sample_result (1#2) "find" !! "parent" = Some v
                      ∧ truthy v = false) ∨
     (∃ p, p ≠ "" ∧ sample_result (1#2) "find" !! "parent" = Some (VStr p)
           ∧ pre = p +:+ ".")).
Proof.
  apply (heading_prefix (sample_result (1#2) "find")).
  vm_compute. reflexivity.
Defined.

(** X6. A result whose heading cannot be built (no parent, no name, or
    a parent that is a number other than zero) stops the display loop
    there: the results before it, which the outside showed, have been
    displayed in full, nothing of it or of the results after it is. *)
Theorem display_stops_at_first_failure w (l1 l2 : list document) r e h :
  Forall displayable l1 → displays_return w (l1 ≫= shown) →
  heading r = Raise e →
  for_each (l1 ++ r :: l2) (display_result w) h = (h ++ (l1 ≫= shown), Raise e).
Proof.
  intros Hall. revert h. induction Hall as [|r1 l1 Hr1 _ IH]; intros h Hw Hr; simpl.
  - unfold bind, display_result, mbind, M_bind, bind, lift. rewrite Hr. simpl.
    by rewrite app_nil_r.
  - rewrite bind_cons in Hw. apply displays_return_app in Hw as [Hw1 Hw2].
    unfold bind at 1. rewrite (display_result_shown _ _ _ Hr1 Hw1), IH by done.
    by rewrite <- app_assoc.
Qed.

Lemma display_stops_at_first_failure_witness :
  for_each ([sample_result (1#2) "find"] ++ {[ "res" := VStr "count" ]}
              :: [sample_result (1#4) "count"])
           (display_result sample_world) [] =
    ([] ++ ([sample_result (1#2) "find"] ≫= shown), Raise (KeyError "parent")).
Proof.
  apply (display_stops_at_first_failure sample_world
           [sample_result (1#2) "find"]
           [sample_result (1#4) "count"] {[ "res" := VStr "count" ]}
           (KeyError "parent") []).
  - each.
    split_and!; [left; vm_compute; reflexivity|eexists; vm_compute; reflexivity..].
  - intros h md _. reflexivity.
  - vm_compute. reflexivity.
Defined.

(** ** Sessions: the cells in any order *)

Ltac which_cell H :=
  unfold notebook in H;
  repeat (apply elem_of_cons in H as [->|H]);
  [..|by apply elem_of_nil in H].

Ltac in_notebook :=
  unfold notebook;
  repeat first [apply list_elem_of_here | apply list_elem_of_further].

Ltac open_kernel k :=
  destruct k as [env [db|] [coll|] [data|] [mdl|] res].

Lemma cell_keeps_environ (c : cell) w k h h' k' :
  c ∈ notebook → c w k h = (h', Ok k') → environ k' = environ k.
Proof.
  intros Hc. which_cell Hc; open_kernel k; unroll;
    try (unfold cell_install, cell_setup; unroll; try case_decide);
    repeat oracle; intros; simplify_eq; try done.
  all: match goal with H : context [for_each ?l ?f ?h] |- _ =>
         destruct (for_each l f h) as [? [[]|?]]; simplify_eq end; done.
Qed.

Lemma run_cells_cons (c : cell) cells w k h :
  run_cells (c :: cells) w k h =
    match c w k h with
    | (h', Ok k') => run_cells cells w k' h'
    | (h', Raise e) => (h', Raise e)
    end.
Proof. done. Qed.

Lemma run_keeps_environ (cells : list cell) w k h h' k' :
  Forall (λ c, c ∈ notebook) cells →
  run_cells cells w k h = (h', Ok k') → environ k' = environ k.
Proof.
  intros Hall. revert k h. induction Hall as [|c cells Hc _ IH]; intros k h.
  - intros [= _ <-]. done.
  - rewrite run_cells_cons. destruct (c w k h) as [h1 [k1|e]] eqn:Hck; [|done].
    intros Hrun. rewrite (IH _ _ Hrun). by eapply cell_keeps_environ.
Qed.

(** X7. No cell assigns to [os.environ] (the line that would is a
    comment): started without OPENAI_API_KEY, whatever cells of the
    notebook have run, in whatever order and however often, the setup
    cell still raises its Exception when run next. The key has to come
    from the environment the kernel was started with. *)
Theorem setup_needs_the_environment (cells : list cell) w env h k :
  Forall (λ c, c ∈ notebook) cells →
  env !! "OPENAI_API_KEY" = None →
  run_cells cells w (fresh env) [] = (h, Ok k) →
  cell_setup w k h = (h, Raise (Exception missing_key_message)).
Proof.
  intros Hall Hkey Hrun. apply cell_setup_unset.
  by rewrite (run_keeps_environ _ _ _ _ _ _ Hall Hrun).
Qed.

Lemma setup_needs_the_environment_witness :
  cell_setup sample_world
    {| environ := ∅;
       g_db := Some ("mongomock://test", "filesystem://./data/");
       g_doc_collection := Some "documents"; g_data := None;
       g_model := None; g_result := None |}
    (installs ++ [EConnect "mongomock://test" "filesystem://./data/"]) =
  (installs ++ [EConnect "mongomock://test" "filesystem://./data/"],
   Raise (Exception missing_key_message)).
Proof.
  apply (setup_needs_the_environment [cell_install; cell_connect]
           sample_world ∅).
  - each; in_notebook.
  - reflexivity.
  - reflexivity.
Defined.

(** *** Nothing reaches the datastore before a connection *)

Lemma connected_app w h t : connected w h → connected w (h ++ t).
Proof.
  intros (h0 & uri & st & rest & -> & Hw).
  exists h0, uri, st, (rest ++ t). by rewrite <- app_assoc.
Qed.

Lemma safe_app w h t :
  safe w h → connected w h ∨ Forall (λ e, ¬ needs_db e) t → safe w (h ++ t).
Proof.
  intros Hs Hor h1 e rest Heq He.
  apply app_eq_inv in Heq as [(k & Hh & Hk)|(k & -> & Hk)].
  - destruct k as [|e' k]; simpl in Hk.
    + rewrite app_nil_r in Hh. subst h1.
      destruct Hor as [?|Hall]; [done|].
      subst t. by apply Forall_cons in Hall as [Hn _].
    + simplify_eq. by eapply Hs.
  - destruct Hor as [?|Hall]; [by apply connected_app|].
    subst t. by apply Forall_app in Hall as [_ [Hn _]%Forall_cons].
Qed.

Lemma safe_nil w : safe w [].
Proof. intros [|] ? ? ?; done. Qed.

Ltac quiet := right; repeat constructor; simpl; tauto.

Lemma cell_safe (c : cell) w k h :
  c ∈ notebook → good w k h →
  match c w k h with
  | (h', Ok k') => good w k' h'
  | (h', Raise _) => safe w h'
  end.
Proof.
  intros Hc [Hs Hconn]. which_cell Hc; open_kernel k; simpl in Hconn;
    try (pose proof (Hconn (mk_is_Some _ _ eq_refl)) as Hcn);
    unroll; try (unfold cell_install, cell_setup; unroll; try case_decide);
    repeat oracle;
    try match goal with |- context [for_each ?l ?f ?h] =>
      destruct (for_each_display_events w l h) as (t & Ht & Hd);
      destruct (for_each l f h) as [h' [[]|?]]; simpl in *; subst h'
    end;
    rewrite <- ?app_assoc; simpl.
  all: try done.
  all: try (split; [|simpl; intros; first [by apply connected_app | by destruct H]]).
  all: try (apply safe_app; [done|]; first [by left | quiet]).
  all: split; [apply safe_app; [done|quiet]|].
  all: intros _; eexists h, _, _, []; split; [done|].
  all: match goal with a : unit |- _ => by destruct a end.
Qed.

(** Every cell only adds to the trace. *)
Lemma cell_extends (c : cell) w k h :
  c ∈ notebook → ∃ t, (c w k h).1 = h ++ t.
Proof.
  intros Hc. which_cell Hc; open_kernel k; unroll;
    try (unfold cell_install, cell_setup; unroll; try case_decide);
    repeat oracle;
    try match goal with |- context [for_each ?l ?f ?h] =>
      destruct (for_each_display_events w l h) as (t & Ht & _);
      destruct (for_each l f h) as [h' [[]|?]]; simpl in *; subst h'
    end;
    rewrite <- ?app_assoc; try (by eexists); by (exists []; rewrite app_nil_r).
Qed.

(** A session is made of steps of cells. *)
Lemma session_invariant (I : kernel → list event → Prop) w k0 :
  I k0 [] →
  (∀ c k h, c ∈ notebook → I k h →
     match c w k h with
     | (h', Ok k') => I k' h'
     | (h', Raise _) => ∀ k', same_globals k k' → I k' h'
     end) →
  ∀ k h, session w k0 k h → I k h.
Proof.
  intros Hstart Hstep k h Hs.
  induction Hs as [|c k h k' h' _ IH Hc Hrun|c k h e k' h' _ IH Hc Hrun Hsame].
  - done.
  - specialize (Hstep c k h Hc IH). by rewrite Hrun in Hstep.
  - specialize (Hstep c k h Hc IH). rewrite Hrun in Hstep. by apply Hstep.
Qed.

Lemma same_globals_refl k : same_globals k k.
Proof. by repeat split. Qed.

(** The run [by_hand] is one session. *)
Lemma by_hand_session (cells : list cell) w k0 k h :
  Forall (λ c, c ∈ notebook) cells → session w k0 k h →
  session w k0 (by_hand cells w k h).1 (by_hand cells w k h).2.
Proof.
  intros Hall. revert k h. induction Hall as [|c cells Hc _ IH]; intros k h Hs.
  - done.
  - simpl. destruct (c w k h) as [h' [k'|e]] eqn:Hrun; apply IH.
    + by eapply session_returns.
    + eapply session_raises; [done..|apply same_globals_refl].
Qed.

Lemma session_safe w env k h : session w (fresh env) k h → good w k h.
Proof.
  apply (session_invariant (good w)).
  - split; [apply safe_nil|]. simpl. by intros [? ?].
  - intros c k1 h1 Hc Hg. pose proof (cell_safe c w k1 h1 Hc Hg) as Hstep.
    destruct (cell_extends c w k1 h1 Hc) as [t Ht].
    destruct (c w k1 h1) as [h' [k'|e]]; [done|].
    simpl in Ht. subst h'. intros k' (_ & Hdb & _). split; [done|].
    rewrite Hdb. intros Hsome. apply connected_app. by apply Hg.
Qed.

(** X8. Whatever cells of the notebook are run by hand on a fresh
    kernel, in whatever order and however often, and going on after a
    cell that raised: every [db.execute], [db.add] and [db.show] in the
    trace comes after a call to [superduper] that returned. *)
Theorem no_datastore_call_before_connection w env k h :
  session w (fresh env) k h →
  ∀ h1 e rest,
    h = h1 ++ e :: rest →
    needs_db e →
    ∃ h0 uri store rest0,
      h1 = h0 ++ EConnect uri store :: rest0 ∧
      w_connect w h0 uri store = Ok tt.
Proof. intros Hs. by destruct (session_safe _ _ _ _ Hs) as [Hsafe _]. Qed.

Lemma no_datastore_call_before_connection_witness :
  ∃ h0 uri store rest0,
    [EConnect "mongomock://test" "filesystem://./data/";
     EShell "curl -O https://superduperdb-public.s3.eu-west-1.amazonaws.com/pymongo.json";
     EReadJson "pymongo.json"] = h0 ++ EConnect uri store :: rest0 ∧
    w_connect sample_world h0 uri store = Ok tt.
Proof.
  apply (no_datastore_call_before_connection sample_world sample_environ _ _
           (by_hand_session
              [cell_insert; cell_connect; cell_load; cell_insert]
              sample_world (fresh sample_environ) (fresh sample_environ) []
              ltac:(each; in_notebook) (session_start _ _)))
    with (e := EExecute (InsertMany "documents" [])) (rest := []).
  - reflexivity.
  - exact I.
Defined.

(** *** Where the inserted documents and the index names come from *)

Lemma loaded_app w d h t : loaded w d h → loaded w d (h ++ t).
Proof.
  intros (h0 & p & rest & -> & Hw).
  exists h0, p, (rest ++ t). by rewrite <- app_assoc.
Qed.

Lemma obtained_app w m h t : obtained w m h → obtained w m (h ++ t).
Proof.
  intros (h0 & p & rest & -> & Hw).
  exists h0, p, (rest ++ t). by rewrite <- app_assoc.
Qed.

Lemma flows_app w e h t : flows w e h → flows w e (h ++ t).
Proof.
  destruct e as [| | | |[]| | | |]; simpl; try done.
  - apply loaded_app.
  - intros (m & Hm & ?). exists m. split; [by apply obtained_app|done].
  - intros (m & Hm & ?). exists m. split; [by apply obtained_app|done].
Qed.

Lemma sound_app w h t :
  sound w h → Forall (λ e, flows w e h) t → sound w (h ++ t).
Proof.
  intros Hs Hall h1 e rest Heq.
  apply app_eq_inv in Heq as [(k & Hh & Hk)|(k & -> & Hk)].
  - destruct k as [|e' k]; simpl in Hk.
    + rewrite app_nil_r in Hh. subst h1 t.
      by apply Forall_cons in Hall as [? _].
    + simplify_eq. by eapply Hs.
  - subst t. apply Forall_app in Hall as [_ [? _]%Forall_cons].
    by apply flows_app.
Qed.

Lemma sound_nil w : sound w [].
Proof. intros [|] ? ? ?; done. Qed.

Lemma displays_flow w h t : Forall is_display t → Forall (λ e, flows w e h) t.
Proof. intros Hd. eapply Forall_impl; [exact Hd|]. by intros []. Qed.

Lemma cell_sound (c : cell) w k h :
  c ∈ notebook → holds w k h →
  match c w k h with
  | (h', Ok k') => holds w k' h'
  | (h', Raise _) => sound w h'
  end.
Proof.
  intros Hc (Hs & Hdata & Hmodel). which_cell Hc; open_kernel k; simpl in *;
    try (pose proof (Hdata _ eq_refl) as Hd);
    try (pose proof (Hmodel _ eq_refl) as Hm);
    unroll; try (unfold cell_install, cell_setup; unroll; try case_decide);
    repeat oracle;
    try match goal with |- context [for_each ?l ?f ?h] =>
      destruct (for_each_display_events w l h) as (t & Ht & Hdis);
      destruct (for_each l f h) as [h' [[]|?]]; simpl in *; subst h'
    end;
    rewrite <- ?app_assoc; simpl.
  all: try done.
  all: try match goal with |- holds _ _ _ => split_and! end.
  all: try match goal with |- sound _ _ =>
         apply sound_app; [done|];
         repeat (apply Forall_cons; split);
         try (by apply displays_flow); try apply Forall_nil;
         simpl; try done; eauto
       end.
  all: simpl; intros ? [= <-].
  all: try (by apply loaded_app).
  all: try (by apply obtained_app).
  all: try match goal with |- loaded _ _ (?h ++ [?e; ?r]) =>
         exists (h ++ [e]), "pymongo.json", []; split;
           [by rewrite <- app_assoc|eassumption]
       end.
  all: match goal with |- obtained _ _ (?h ++ [?e]) =>
         exists h, "text-embedding-ada-002", []; split; [done|eassumption]
       end.
Qed.

Lemma fresh_holds w env : holds w (fresh env) [].
Proof. split_and!; [apply sound_nil|done..]. Qed.

Lemma session_sound w env k h : session w (fresh env) k h → holds w k h.
Proof.
  apply (session_invariant (holds w)).
  - apply fresh_holds.
  - intros c k1 h1 Hc Hg. pose proof (cell_sound c w k1 h1 Hc Hg) as Hstep.
    destruct (cell_extends c w k1 h1 Hc) as [t Ht].
    destruct (c w k1 h1) as [h' [k'|e]]; [done|].
    simpl in Ht. subst h'. destruct Hg as (_ & Hdata & Hmodel).
    intros k' (_ & _ & _ & Hd & Hm). split_and!; [done|..].
    + rewrite Hd. intros d ?. by apply loaded_app, Hdata.
    + rewrite Hm. intros m ?. by apply obtained_app, Hmodel.
Qed.



(** X10. Whatever cells of the notebook are run by hand on a fresh
    kernel, in whatever order and however often, and going on after a
    cell that raised: the identifier of every VectorIndex handed to
    [db.add] is 'pymongo-docs-' followed by the identifier of a model
    that an earlier model construction of the session returned, and that
    model is the index's listener's; the index name of every [like]
    query is built the same way. *)
Theorem index_names_come_from_a_model w env k h :
  session w (fresh env) k h →
  ∀ h1 e rest,
    h = h1 ++ e :: rest →
    (∀ vi, e = EAdd vi →
       ∃ m, obtained w m h1 ∧
            vi_identifier vi = "pymongo-docs-" +:+ identifier m ∧
            model (indexing_listener vi) = m) ∧
    (∀ coll r name n, e = EExecute (LikeFind coll r name n) →
       ∃ m, obtained w m h1 ∧ name = "pymongo-docs-" +:+ identifier m).
Proof.
  intros Hs h1 e rest Heq.
  destruct (session_sound _ _ _ _ Hs) as [Hsound _].
  pose proof (Hsound _ _ _ Heq) as Hf.
  split; intros; subst e; exact Hf.
Qed.

Lemma index_names_come_from_a_model_witness :
  (∀ vi,
     EAdd {| vi_identifier := "pymongo-docs-text-embedding-ada-002";
             indexing_listener :=
               {| select := Find "documents"; key := "value";
                  model := sample_model;
                  predict_kwargs := {[ "max_chunk_size" := 1000%Z ]} |} |}
       = EAdd vi →
     ∃ m, obtained sample_world m
            [EConnect "mongomock://test" "filesystem://./data/";
             ENewModel "text-embedding-ada-002"] ∧
          vi_identifier vi = "pymongo-docs-" +:+ identifier m ∧
          model (indexing_listener vi) = m) ∧
  (∀ coll r name n,
     EAdd {| vi_identifier := "pymongo-docs-text-embedding-ada-002";
             indexing_listener :=
               {| select := Find "documents"; key := "value";
                  model := sample_model;
                  predict_kwargs := {[ "max_chunk_size" := 1000%Z ]} |} |}
       = EExecute (LikeFind coll r name n) →
     ∃ m, obtained sample_world m
            [EConnect "mongomock://test" "filesystem://./data/";
             ENewModel "text-embedding-ada-002"] ∧
          name = "pymongo-docs-" +:+ identifier m).
Proof.
  apply (index_names_come_from_a_model sample_world sample_environ _ _
           (by_hand_session
              [cell_index; cell_connect; cell_model; cell_index]
              sample_world (fresh sample_environ) (fresh sample_environ) []
              ltac:(each; in_notebook) (session_start _ _)))
    with (rest := [EShow "vector_index"]).
  reflexivity.
Defined.

End NotebookCoverage.
